(** * active-recall: the spell-check token filter and the classifier command loop

    A shallow embedding of
    - [src/main/services/preprocessing/impl/spellcheck.py] (class [SpellChecker]),
    - [src/main/services/analysis/python/huggingface_classifier.py]
      (class [HuggingFaceClassifier] and [main]),
    followed by the properties of the specification that were checked on it.

    Conventions.
    - A Python [str] is a list of characters.  The alphabet is the 8-bit type
      [ascii]: codes 0..127 are the ASCII characters with Python's
      classification ([str.isspace], [str.isupper], [str.lower], ...); the
      codes 128..255 stand for characters that are caseless (letters or not),
      not whitespace and not digits, on which all the methods used here act
      as on any other symbol.  Characters with a case outside ASCII, among
      them those whose case mapping changes the length of a string or is
      missing, are not represented: what is said of [lower], [upper] and
      [capitalize] beyond "these are the methods called" is said of ASCII
      strings.
    - The dictionary engine (symspellpy) is external: a [SymSpell] object is
      its [lookup] method, an arbitrary function.  Every call to it is
      recorded, so that "the suggestion path is not consulted" is a statement
      about the record of calls.
    - Python exceptions are results: a computation yields [Ok v] or [Raise e]. *)

From Stdlib Require Import Ascii String ZArith Lia.
From stdpp Require Import gmap strings list.

Local Open Scope char_scope.

(* ===================================================================== *)
(** * Python strings                                                      *)
(* ===================================================================== *)

Abbreviation str := (list ascii).

(** A string literal of the source, as a [str]. *)
Definition py (s : string) : str := list_ascii_of_string s.

Module PyStr.

Definition ord (c : ascii) : N := N_of_ascii c.

Definition in_range (lo hi c : ascii) : bool :=
  ((ord lo <=? ord c) && (ord c <=? ord hi))%N.

(** [c.isupper()], [c.islower()] for a single character. *)
Definition c_isupper (c : ascii) : bool := in_range "A" "Z" c.
Definition c_islower (c : ascii) : bool := in_range "a" "z" c.

(** Whitespace: TAB, LF, VT, FF, CR, the separators FS, GS, RS, US, and the
    space.  The same set is used by [str.isspace], by [str.strip()] without
    argument and by the regex classes [\s] and [\S] on [str] patterns. *)
Definition c_isspace (c : ascii) : bool :=
  in_range "009" "013" c || in_range "028" " " c.

Definition c_lower (c : ascii) : ascii :=
  if c_isupper c then ascii_of_N (ord c + 32) else c.
Definition c_upper (c : ascii) : ascii :=
  if c_islower c then ascii_of_N (ord c - 32) else c.

(** [s.isspace()]: at least one character and all of them whitespace. *)
Definition isspace (s : str) : bool :=
  match s with [] => false | _ => forallb c_isspace s end.

(** [s.isupper()]: no lowercase character and at least one uppercase one
    (uncased characters are ignored). *)
Definition isupper (s : str) : bool :=
  existsb c_isupper s && negb (existsb c_islower s).

Definition lower (s : str) : str := map c_lower s.
Definition upper (s : str) : str := map c_upper s.

(** [s.capitalize()]: first character uppercased, the rest lowercased. *)
Definition capitalize (s : str) : str :=
  match s with
  | [] => []
  | c :: rest => c_upper c :: lower rest
  end.

(** [c in s] for a character [c]. *)
Definition contains (c : ascii) (s : str) : bool := bool_decide (c ∈ s).

Fixpoint startswith (prefix s : str) : bool :=
  match prefix, s with
  | [], _ => true
  | p :: prefix', c :: s' => Ascii.eqb p c && startswith prefix' s'
  | _ :: _, [] => false
  end.

(** [s.startswith((p1, p2, ...))] with a tuple of prefixes. *)
Definition startswith_any (prefixes : list str) (s : str) : bool :=
  existsb (fun p => startswith p s) prefixes.

(** Leading characters that satisfy [p] removed. *)
Fixpoint lstrip_by (p : ascii -> bool) (s : str) : str :=
  match s with
  | [] => []
  | c :: s' => if p c then lstrip_by p s' else s
  end.
Definition rstrip_by (p : ascii -> bool) (s : str) : str :=
  reverse (lstrip_by p (reverse s)).
Definition strip_by (p : ascii -> bool) (s : str) : str :=
  rstrip_by p (lstrip_by p s).

(** [s.strip(chars)]: characters of [chars] removed from both ends. *)
Definition strip (chars s : str) : str := strip_by (fun c => contains c chars) s.

(** [s.strip()]: whitespace removed from both ends. *)
Definition strip_whitespace (s : str) : str := strip_by c_isspace s.

(** [''.join(parts)]. *)
Definition join (parts : list str) : str := concat parts.

(** [set(s)], the set of the distinct characters of [s]. *)
Definition set (s : str) : gset ascii := list_to_set s.

End PyStr.

(* ===================================================================== *)
(** * Regular expressions (module [re])                                   *)
(* ===================================================================== *)

Module Re.
Import PyStr.

Inductive regex : Type :=
| Void                               (* matches no string *)
| Eps                                (* the empty string *)
| Class (p : ascii -> bool)          (* one character of a class *)
| Seq (r1 r2 : regex)
| Alt (r1 r2 : regex)
| Star (r : regex).

Definition Chr (c : ascii) : regex := Class (Ascii.eqb c).
Definition Plus (r : regex) : regex := Seq r (Star r).
(** [r{2,}] *)
Definition AtLeast2 (r : regex) : regex := Seq r (Plus r).
Fixpoint Lit (s : str) : regex :=
  match s with
  | [] => Eps
  | c :: s' => Seq (Chr c) (Lit s')
  end.
(** [.] with DOTALL, used only to place a pattern anywhere in a string. *)
Definition Any : regex := Class (fun _ => true).

Fixpoint nullable (r : regex) : bool :=
  match r with
  | Void => false
  | Eps => true
  | Class _ => false
  | Seq r1 r2 => nullable r1 && nullable r2
  | Alt r1 r2 => nullable r1 || nullable r2
  | Star _ => true
  end.

(** Derivative of [r] by the character [c]. *)
Fixpoint deriv (c : ascii) (r : regex) : regex :=
  match r with
  | Void => Void
  | Eps => Void
  | Class p => if p c then Eps else Void
  | Seq r1 r2 =>
      if nullable r1
      then Alt (Seq (deriv c r1) r2) (deriv c r2)
      else Seq (deriv c r1) r2
  | Alt r1 r2 => Alt (deriv c r1) (deriv c r2)
  | Star r1 => Seq (deriv c r1) (Star r1)
  end.

(** Does [r] match the whole of [s]? *)
Fixpoint fullmatch (r : regex) (s : str) : bool :=
  match s with
  | [] => nullable r
  | c :: s' => fullmatch (deriv c r) s'
  end.

(** [bool(re.search(r, s))]: some substring of [s] matches [r]. *)
Definition search (r : regex) (s : str) : bool :=
  fullmatch (Seq (Star Any) (Seq r (Star Any))) s.

(** [bool(re.match('^' r '$', s))]: [r] matches from the start, and [$]
    holds where it stops: at the end of [s], or just before a newline that
    is the last character of [s]. *)
Definition match_anchored (r : regex) (s : str) : bool :=
  fullmatch (Seq r (Alt Eps (Chr "010"))) s.

(** The character classes of the source's patterns. *)
Definition upper_AZ : regex := Class (in_range "A" "Z").
Definition digit : regex := Class (in_range "0" "9").
Definition hexdigit : regex :=
  Class (fun c => in_range "0" "9" c || in_range "a" "f" c || in_range "A" "F" c).

(** Longest prefix of [s] whose characters satisfy [p], and the rest:
    what a greedy [p+] consumes at the head of [s]. *)
Fixpoint span (p : ascii -> bool) (s : str) : str * str :=
  match s with
  | [] => ([], [])
  | c :: s' =>
      if p c then let '(m, rest) := span p s' in (c :: m, rest)
      else ([], s)
  end.

(** One attempt of the pattern [(\S+|\s+)] at the head of [s]: the first
    alternative takes the longest run of non-whitespace; when it takes
    nothing the second takes the longest run of whitespace.  Nothing
    follows the group, so the greedy choice is never undone. *)
Definition match_token (s : str) : option (str * str) :=
  match span (fun c => negb (c_isspace c)) s with
  | (c :: m, rest) => Some (c :: m, rest)
  | ([], _) =>
      match span c_isspace s with
      | (c :: m, rest) => Some (c :: m, rest)
      | ([], _) => None
      end
  end.

(** [re.findall(r'(\S+|\s+)', s)]: scan from the left; a match is
    recorded and the scan resumes where it ended, a position without a
    match is passed over.  A match is never empty, so [fuel] steps are
    enough as soon as [fuel] is the length of [s]. *)
Fixpoint findall_tokens_from (fuel : nat) (s : str) : list str :=
  match fuel with
  | O => []
  | S fuel' =>
      match s with
      | [] => []
      | _ :: s' =>
          match match_token s with
          | Some (m, rest) => m :: findall_tokens_from fuel' rest
          | None => findall_tokens_from fuel' s'
          end
      end
  end.

Definition findall_tokens (s : str) : list str :=
  findall_tokens_from (length s) s.

End Re.

(* ===================================================================== *)
(** * Results, and the record of dictionary calls                         *)
(* ===================================================================== *)

(** The exceptions.  [IndexError] is the one the spell checker's own code
    can raise: an index out of range ([original[0]] on an empty string).
    The others come from the calls it makes to open, read and decode a file
    or standard input, none of which it guards. *)
Inductive exn : Type := IndexError | OSError | UnicodeDecodeError.

Inductive result (A : Type) : Type :=
| Ok (a : A)
| Raise (e : exn).
Arguments Ok {A} a.
Arguments Raise {A} e.

(** symspellpy's [Verbosity]. *)
Inductive Verbosity : Type := TOP | CLOSEST | ALL.

(** symspellpy's [SuggestItem]. *)
Record SuggestItem : Type := mkSuggestItem {
  term : str;
  distance : Z;
  count : Z
}.

(** symspellpy's [SymSpell], after [load_dictionary]: what the rest of the
    code uses of it is [lookup(phrase, verbosity, max_edit_distance)]. *)
Record SymSpell : Type := mkSymSpell {
  lookup : str -> Verbosity -> Z -> list SuggestItem
}.

(** One call [sym_spell.lookup(phrase, verbosity, max_edit_distance)]. *)
Record call : Type := Lookup {
  call_phrase : str;
  call_verbosity : Verbosity;
  call_max_edit_distance : Z
}.

(** A computation: its result and the dictionary calls it made, in order. *)
Definition M (A : Type) : Type := (result A * list call)%type.

Definition ret {A} (a : A) : M A := (Ok a, []).
Definition raise {A} (e : exn) : M A := (Raise e, []).
Definition bind {A B} (m : M A) (k : A -> M B) : M B :=
  match m with
  | (Ok a, log) => let '(r, log') := k a in (r, log ++ log')
  | (Raise e, log) => (Raise e, log)
  end.

Notation "x <- m ;; k" := (bind m (fun x => k))
  (at level 100, m at next level, right associativity).

(** The value of a computation, and the calls it made. *)
Definition value {A} (m : M A) : result A := fst m.
Definition calls {A} (m : M A) : list call := snd m.

(** [[f(x) for x in xs]], left to right; an exception ends it. *)
Fixpoint mapM {A B} (f : A -> M B) (xs : list A) : M (list B) :=
  match xs with
  | [] => ret []
  | x :: xs' => y <- f x ;; ys <- mapM f xs' ;; ret (y :: ys)
  end.

(** [sym_spell.lookup(phrase, verbosity, max_edit_distance)], recorded. *)
Definition sym_lookup (sym_spell : SymSpell) (phrase : str) (verbosity : Verbosity)
    (max_edit_distance : Z) : M (list SuggestItem) :=
  (Ok (lookup sym_spell phrase verbosity max_edit_distance),
   [Lookup phrase verbosity max_edit_distance]).

(* ===================================================================== *)
(** * spellcheck.py: class SpellChecker                                   *)
(* ===================================================================== *)

Module SpellChecker.
Import PyStr Re.

(** What [_create_spell_checker] sees of the file system: whether the
    dictionary file is there, whether it is there after
    [_download_dictionary] (which swallows every failure), and what
    [sym_spell.load_dictionary] does with the file that is there: the index
    it builds from the rows it can read (none, for a file without such rows),
    or the exception it raises (a file that cannot be opened or decoded). *)
Record FileSystem : Type := mkFileSystem {
  dictionary_exists : bool;
  exists_after_download : bool;
  load_dictionary : result SymSpell
}.

(** [self.sym_spell]: [None] when no dictionary could be had. *)
Record t : Type := mkSpellChecker {
  sym_spell : option SymSpell
}.

(** The call to [load_dictionary] stands in no [try]: what it raises leaves
    [_create_spell_checker], and the constructor, as it is. *)
Definition _create_spell_checker (fs : FileSystem) : result (option SymSpell) :=
  let present :=
    if negb (dictionary_exists fs) then exists_after_download fs
    else true in
  if present then
    match load_dictionary fs with
    | Ok sym_spell => Ok (Some sym_spell)
    | Raise e => Raise e
    end
  else Ok None.

(** [SpellChecker()] *)
Definition __init__ (fs : FileSystem) : result t :=
  match _create_spell_checker fs with
  | Ok sym_spell => Ok (mkSpellChecker sym_spell)
  | Raise e => Raise e
  end.

Definition _tokenize (text : str) : list str := findall_tokens text.

(** The argument of [strip] in [_extract_word]: the 30 characters of the
    source's literal, in its order; the seventh is the double quote
    (code 34). *)
Definition punctuation : str :=
  py ".,!?;:" ++ ["034"] ++ py "'()[]{}|<>/*-+=@#$%^&~`".

Definition _extract_word (token : str) : str * str :=
  let word := strip punctuation token in
  let trailing := drop (length word) token in
  (word, trailing).

Definition _is_url (word : str) : bool :=
  startswith_any [py "http://"; py "https://"; py "www."] word.

Definition _is_file_path (word : str) : bool :=
  contains "/" word || contains "\" word || startswith (py ".") word.

Definition _is_acronym (word : str) : bool :=
  search (AtLeast2 upper_AZ) word.

Definition _is_camel_case (word : str) : bool :=
  (1 <? length word)%nat && existsb c_isupper (drop 1 word).

Definition _has_underscores (word : str) : bool := contains "_" word.

Definition _is_code_pattern (word : str) : bool :=
  match_anchored
    (Alt (Seq (Chr "#") (Plus hexdigit))
    (Alt (Seq (Lit (py "0x")) (Plus hexdigit))
         (Plus digit)))
    word.

Definition _should_skip_correction (word : str) : bool :=
  match word with
  | [] => true
  | _ =>
      _is_url word ||
      _is_file_path word ||
      _is_acronym word ||
      _is_camel_case word ||
      _has_underscores word ||
      _is_code_pattern word
  end.

Definition _word_exists_in_dictionary (d : SymSpell) (word : str) : M bool :=
  lookup <- sym_lookup d (lower word) TOP 0 ;;
  ret (match lookup with
       | [] => false
       | item :: _ => (1000 <? count item)%Z
       end).

Definition _get_suggestions (d : SymSpell) (word : str) : M (list SuggestItem) :=
  sym_lookup d (lower word) CLOSEST 2.

Definition _is_minor_typo (original : str) (suggestion : SuggestItem) : bool :=
  if (distance suggestion =? 1)%Z && (4 <=? length original)%nat
  then bool_decide (set (lower original) ≠ set (term suggestion))
  else false.

Definition _preserve_case (original corrected : str) : M str :=
  if isupper original then ret (upper corrected)
  else
    match original with
    | [] => raise IndexError
    | c :: _ =>
        if c_isupper c then ret (capitalize corrected)
        else ret corrected
    end.

Definition _apply_correction (d : SymSpell) (word : str) : M str :=
  known <- _word_exists_in_dictionary d word ;;
  if known : bool then ret word
  else
    suggestions <- _get_suggestions d word ;;
    match suggestions with
    | [] => ret word
    | top :: _ =>
        if _is_minor_typo word top then ret word
        else _preserve_case word (term top)
    end.

Definition _correct_token (d : SymSpell) (token : str) : M str :=
  if isspace token then ret token
  else
    let '(word, trailing_punctuation) := _extract_word token in
    if _should_skip_correction word then ret token
    else
      corrected_word <- _apply_correction d word ;;
      ret (corrected_word ++ trailing_punctuation).

Definition correct_text (self : t) (text : str) : M str :=
  match sym_spell self with
  | None => ret text
  | Some d =>
      let tokens := _tokenize text in
      corrected_tokens <- mapM (_correct_token d) tokens ;;
      ret (join corrected_tokens)
  end.

(** [main]: [sys.stdin.read()] returns the whole of standard input or
    raises; the checker is built, or its constructor raises; the text is
    corrected and printed, and [print] ends the output with a newline.
    Nothing is caught.  What is returned is what is written to standard
    output; a failure of the writing itself is not modelled. *)
Definition main (fs : FileSystem) (stdin : result str) : M str :=
  match stdin with
  | Raise e => raise e
  | Ok text =>
      match __init__ fs with
      | Raise e => raise e
      | Ok checker =>
          corrected <- correct_text checker text ;;
          ret (corrected ++ ["010"])
      end
  end.

(** ** Dictionaries used in the examples *)

(** A dictionary whose engine proposes [suggestion] for the lowercased
    word [phrase] and knows nothing else. *)
Definition suggesting (phrase : str) (suggestion : SuggestItem) : SymSpell :=
  mkSymSpell (fun p v _ =>
    match v with
    | CLOSEST => if bool_decide (p = phrase) then [suggestion] else []
    | _ => []
    end).

(** A dictionary that holds the single term [t] with frequency [n]. *)
Definition holding (t : str) (n : Z) : SymSpell :=
  mkSymSpell (fun p _ _ =>
    if bool_decide (p = t) then [mkSuggestItem t 0 n] else []).

(** The index of a dictionary file without a row that can be read. *)
Definition no_entries : SymSpell := mkSymSpell (fun _ _ _ => []).

Definition helllo_to_hello : SymSpell :=
  suggesting (py "helllo") (mkSuggestItem (py "hello") 1 5000).
Definition aabb_to_abab : SymSpell :=
  suggesting (py "aabb") (mkSuggestItem (py "abab") 1 10).
Definition teh_to_the : SymSpell :=
  suggesting (py "teh") (mkSuggestItem (py "the") 1 23135851162).
Definition wrld_to_world : SymSpell :=
  suggesting (py "wrld") (mkSuggestItem (py "world") 1 7000).

End SpellChecker.

(* ===================================================================== *)
(** * huggingface_classifier.py                                           *)
(* ===================================================================== *)

Module Classifier.
Import PyStr.

(** The values that [json.loads] returns and [json.dumps] prints.  A number
    is kept as its literal; an object lists its members, each key once. *)
#[local] Unset Elimination Schemes.
Inductive json : Type :=
| JNull
| JBool (b : bool)
| JNumber (literal : str)
| JString (s : str)
| JArray (items : list json)
| JObject (members : list (str * json)).
#[local] Set Elimination Schemes.

(** [d.get(key)] on the members of a dict. *)
Fixpoint dict_get (key : str) (members : list (str * json)) : option json :=
  match members with
  | [] => None
  | (k, v) :: rest => if bool_decide (k = key) then Some v else dict_get key rest
  end.

(** [value == "literal"] for a value that may be absent ([None]). *)
Definition is_string (literal : string) (value : option json) : bool :=
  match value with
  | Some (JString s) => bool_decide (s = py literal)
  | _ => false
  end.

(** What the zero-shot pipeline returns: [result['labels']],
    [result['scores']], [result['sequence']]. *)
Record PipeResult : Type := mkPipeResult {
  result_labels : json;
  result_scores : json;
  result_sequence : str
}.

(** [self.pipe(text, candidate_labels=labels, multi_label=multi_label)]:
    the text [str(e)] of the exception it raised, or its result. *)
Definition Pipeline : Type := json -> json -> json -> str + PipeResult.

(** The external collaborators. *)
Record Runtime : Type := mkRuntime {
  (** [json.loads(line)]: [inl msg] is a [JSONDecodeError] whose text is [msg]. *)
  json_loads : str -> str + json;
  (** [pipeline("zero-shot-classification", model=model_name, ...)]:
      [inl msg] is an exception whose text is [msg]. *)
  load_pipeline : str -> str + Pipeline;
  (** How an f-string prints a value ([None] when it is absent). *)
  format : option json -> str
}.

(** A written response, [{"type": ty, ...}]. *)
Definition error_response (message : str) : json :=
  JObject [(py "type", JString (py "error")); (py "error", JString message)].

(** [response.get("type")]. *)
Definition response_type (response : json) : option json :=
  match response with
  | JObject members => dict_get (py "type") members
  | _ => None
  end.

(** [__init__] and [_initialize_pipeline]: the line printed, and the
    pipeline, or [None] when [sys.exit(1)] was called. *)
Definition _initialize_pipeline (rt : Runtime) (model_name : str)
    : json * option Pipeline :=
  match load_pipeline rt model_name with
  | inr pipe =>
      (JObject [(py "type", JString (py "initialized"));
                (py "model", JString model_name);
                (py "status", JString (py "success"))],
       Some pipe)
  | inl e =>
      (error_response (py "Failed to initialize model: " ++ e), None)
  end.

Definition classify (pipe : option Pipeline) (text labels multi_label : json) : json :=
  match pipe with
  | None => JObject [(py "error", JString (py "Pipeline not initialized"))]
  | Some run =>
      match run text labels multi_label with
      | inr result =>
          JObject [(py "type", JString (py "classification"));
                   (py "labels", result_labels result);
                   (py "scores", result_scores result);
                   (py "sequence",
                    JString (if (100 <? length (result_sequence result))%nat
                             then take 100 (result_sequence result) ++ py "..."
                             else result_sequence result))]
      | inl e => error_response (py "Classification failed: " ++ e)
      end
  end.

(** [process_command]: [inl msg] is an exception ([command] is no dict, so
    it has no [get]). *)
Definition process_command (rt : Runtime) (pipe : option Pipeline) (command : json)
    : str + json :=
  match command with
  | JObject members =>
      let cmd_type := dict_get (py "type") members in
      if is_string "classify" cmd_type then
        let text := default (JString []) (dict_get (py "text") members) in
        let labels := default (JArray []) (dict_get (py "labels") members) in
        let multi_label := default (JBool false) (dict_get (py "multi_label") members) in
        inr (classify pipe text labels multi_label)
      else if is_string "ping" cmd_type then
        inr (JObject [(py "type", JString (py "pong")); (py "status", JString (py "ready"))])
      else if is_string "shutdown" cmd_type then
        inr (JObject [(py "type", JString (py "shutdown"));
                      (py "status", JString (py "acknowledged"))])
      else
        inr (error_response (py "Unknown command type: " ++ format rt cmd_type))
  | _ => inl (py "object has no attribute 'get'")
  end.

(** The loop [for line in sys.stdin] of [main]: the responses written, and
    the lines left unread when the loop ended. *)
Fixpoint command_loop (rt : Runtime) (pipe : option Pipeline) (stdin : list str)
    : list json * list str :=
  match stdin with
  | [] => ([], [])
  | line :: rest =>
      match strip_whitespace line with
      | [] => command_loop rt pipe rest
      | line' =>
          match json_loads rt line' with
          | inl e =>
              let '(written, unread) := command_loop rt pipe rest in
              (error_response (py "Invalid JSON: " ++ e) :: written, unread)
          | inr command =>
              match process_command rt pipe command with
              | inl e =>
                  let '(written, unread) := command_loop rt pipe rest in
                  (error_response (py "Processing error: " ++ e) :: written, unread)
              | inr result =>
                  if is_string "shutdown" (response_type result)
                  then ([result], rest)
                  else
                    let '(written, unread) := command_loop rt pipe rest in
                    (result :: written, unread)
              end
          end
      end
  end.

Definition shutdown_complete : json :=
  JObject [(py "type", JString (py "shutdown")); (py "status", JString (py "complete"))].

Definition shutdown_acknowledged : json :=
  JObject [(py "type", JString (py "shutdown")); (py "status", JString (py "acknowledged"))].

(** What the iteration [for line in sys.stdin] does at a turn, when it
    does not stop at the end of the input: it gives the next line; or a
    [KeyboardInterrupt] is raised, while the loop waits for the line or
    handles it, before a response to it is written (the line, if there is
    one, goes with the event); or the read raises another exception (a line
    that cannot be decoded), whose text is [e]. *)
Inductive stdin_event : Type :=
| Line (line : str)
| KeyboardInterrupt
| ReadError (e : str).

(** How the loop was left. *)
Inductive ending : Type :=
| EndOfInput
| ShutdownCommand
| Interrupted
| ReadFailed (e : str).

(** The body of the loop for one line: the response written, if any, and
    whether [break] was reached. *)
Definition handle_line (rt : Runtime) (pipe : option Pipeline) (line : str)
    : option json * bool :=
  match strip_whitespace line with
  | [] => (None, false)
  | line' =>
      match json_loads rt line' with
      | inl e => (Some (error_response (py "Invalid JSON: " ++ e)), false)
      | inr command =>
          match process_command rt pipe command with
          | inl e => (Some (error_response (py "Processing error: " ++ e)), false)
          | inr result => (Some result, is_string "shutdown" (response_type result))
          end
      end
  end.

(** The loop of [main] with what the iteration itself can raise: the
    responses written, the events left unread, and how the loop was left.
    A [KeyboardInterrupt] is caught by [except KeyboardInterrupt: pass];
    another exception of the read is caught by nothing.  On lines that are
    all read without an exception this is [command_loop]. *)
Fixpoint serve (rt : Runtime) (pipe : option Pipeline) (stdin : list stdin_event)
    : list json * list stdin_event * ending :=
  match stdin with
  | [] => ([], [], EndOfInput)
  | KeyboardInterrupt :: rest => ([], rest, Interrupted)
  | ReadError e :: rest => ([], rest, ReadFailed e)
  | Line line :: rest =>
      let '(response, stop) := handle_line rt pipe line in
      if stop : bool then (option_list response, rest, ShutdownCommand)
      else
        let '(written, unread, how) := serve rt pipe rest in
        (option_list response ++ written, unread, how)
  end.

(** A run of the process: everything written to standard output, the
    events of standard input left unread, and the exit status. *)
Record Run : Type := mkRun {
  stdout : list json;
  unread : list stdin_event;
  exit_status : Z
}.

(** [main].  A model that does not load ends the process in the
    constructor ([sys.exit(1)]), before the [try].  Otherwise the [finally]
    clause writes the last line however the loop was left; the exit status
    is 0 unless an exception of the read went uncaught. *)
Definition main (rt : Runtime) (model_name : str) (stdin : list stdin_event) : Run :=
  match _initialize_pipeline rt model_name with
  | (printed, None) => mkRun [printed] stdin 1
  | (printed, Some pipe) =>
      let '(written, rest, how) := serve rt (Some pipe) stdin in
      mkRun (printed :: written ++ [shutdown_complete]) rest
            (match how with ReadFailed _ => 1 | _ => 0 end)
  end.

(** ** A small runtime for the examples *)

Definition quoted (s : string) : str := ["034"] ++ py s ++ ["034"].

(** The line [{"type": "<ty>"}]. *)
Definition command_line (ty : string) : str :=
  py "{" ++ quoted "type" ++ py ": " ++ quoted ty ++ py "}".

(** A parser that knows the lines [{"type": "ping"}] and
    [{"type": "shutdown"}] and rejects every other line, a model that
    loads, and a pipeline that always fails. *)
Definition small_runtime : Runtime :=
  mkRuntime
    (fun line =>
       if bool_decide (line = command_line "ping")
       then inr (JObject [(py "type", JString (py "ping"))])
       else if bool_decide (line = command_line "shutdown")
       then inr (JObject [(py "type", JString (py "shutdown"))])
       else inl (py "Expecting value: line 1 column 1 (char 0)"))
    (fun _ => inr (fun _ _ _ => inl (py "no model")))
    (fun _ => py "None").


End Classifier.

(* ===================================================================== *)
(** * Vocabulary of the properties                                        *)
(* ===================================================================== *)

Module Props.
Import PyStr Re SpellChecker.

(** The class of a run: [Some true] for a non-empty string of whitespace,
    [Some false] for a non-empty string without whitespace, [None] for the
    empty string and for a string that mixes the two. *)
Definition run_class (token : str) : option bool :=
  match token with
  | [] => None
  | c :: rest =>
      if forallb (fun d => Bool.eqb (c_isspace d) (c_isspace c)) rest
      then Some (c_isspace c)
      else None
  end.

(** Every token is a run, and neighbours are of different classes: no run
    can be extended by a character of its neighbour, so each is maximal. *)
Fixpoint alternating_runs (tokens : list str) : Prop :=
  match tokens with
  | [] => True
  | token :: rest =>
      is_Some (run_class token) /\
      match rest with
      | [] => True
      | next :: _ => run_class token <> run_class next
      end /\
      alternating_runs rest
  end.

(** The inputs of the skip list.  The path is listed with single and with
    doubled backslashes, the two ways of reading its literal. *)
Definition skip_list : list str :=
  [ py "http://example.com"; py "C:\path\to\file"; py "C:\\path\\to\\file";
    py "NASA"; py "getUserId"; py "max_value"; py "#FF00FF"; py "0x1A";
    py "42" ].

(** The word that [_correct_token] hands to the eligibility filter. *)
Definition word_of (token : str) : str := fst (_extract_word token).

(** A token that [_correct_token] leaves alone: whitespace only, or an
    empty word, or a word that one of the six rules catches. *)
Definition left_alone (token : str) : Prop :=
  isspace token = true \/
  word_of token = [] \/
  _is_url (word_of token) = true \/
  _is_file_path (word_of token) = true \/
  _is_acronym (word_of token) = true \/
  _is_camel_case (word_of token) = true \/
  _has_underscores (word_of token) = true \/
  _is_code_pattern (word_of token) = true.

(** The high-frequency test, read off the dictionary. *)
Definition known_word (d : SymSpell) (word : str) : bool :=
  match lookup d (lower word) TOP 0 with
  | [] => false
  | item :: _ => (1000 <? count item)%Z
  end.

(** Each piece is the correction of the token at its place. *)
Definition corrections_of (d : SymSpell) (tokens pieces : list str) : Prop :=
  Forall2 (fun token piece => value (_correct_token d token) = Ok piece)
    tokens pieces.






(** The text [correct_text] returns is the concatenation of one piece per
    token, the piece at place [i] is [token], and with a dictionary every
    piece is the correction of the token at its place. *)
Definition reproduced_at (self : SpellChecker.t) (text : str) (i : nat) (token : str)
    : Prop :=
  exists pieces,
    value (correct_text self text) = Ok (join pieces) /\
    pieces !! i = Some token /\
    length pieces = length (_tokenize text) /\
    (forall d, sym_spell self = Some d -> corrections_of d (_tokenize text) pieces).






End Props.

(* ===================================================================== *)
(** * Vocabulary of the further properties                                *)
(* ===================================================================== *)

Module Lang.
Import PyStr Re SpellChecker Props.

(** The strings that a pattern matches. *)
Inductive Matches : regex -> str -> Prop :=
| MEps : Matches Eps []
| MClass (p : ascii -> bool) (c : ascii) : p c = true -> Matches (Class p) [c]
| MSeq (r1 r2 : regex) (s1 s2 : str) :
    Matches r1 s1 -> Matches r2 s2 -> Matches (Seq r1 r2) (s1 ++ s2)
| MAltL (r1 r2 : regex) (s : str) : Matches r1 s -> Matches (Alt r1 r2) s
| MAltR (r1 r2 : regex) (s : str) : Matches r2 s -> Matches (Alt r1 r2) s
| MStarNil (r : regex) : Matches (Star r) []
| MStarApp (r : regex) (s1 s2 : str) :
    Matches r s1 -> Matches (Star r) s2 -> Matches (Star r) (s1 ++ s2).

(** A string of ASCII characters, the strings on which [lower], [upper]
    and [capitalize] are Python's. *)
Definition is_ascii (s : str) : bool := forallb (fun c => (ord c <? 128)%N) s.

(** A hexadecimal digit, [0-9a-fA-F]. *)
Definition c_ishex (c : ascii) : bool :=
  in_range "0" "9" c || in_range "a" "f" c || in_range "A" "F" c.

(** A decimal digit, [0-9]. *)
Definition c_isdigit (c : ascii) : bool := in_range "0" "9" c.

(** A colour [#hhh], a literal [0xhhh] or a decimal number. *)
Definition code_literal (body : str) : Prop :=
  (exists h, body = "#" :: h /\ h <> [] /\ forallb c_ishex h = true) \/
  (exists h, body = "0" :: "x" :: h /\ h <> [] /\ forallb c_ishex h = true) \/
  (body <> [] /\ forallb c_isdigit body = true).

(** Two uppercase letters [A-Z] side by side somewhere in the word. *)
Definition adjacent_capitals (word : str) : Prop :=
  exists pre a b post,
    word = pre ++ a :: b :: post /\ c_isupper a = true /\ c_isupper b = true.

(** The engine returns the word it was given. *)
Definition keeps (d : SymSpell) (word : str) : Prop :=
  value (_apply_correction d word) = Ok word.

(** The token begins with a character that [_extract_word] strips. *)
Definition begins_with_punctuation (token : str) : bool :=
  match token with
  | [] => false
  | c :: _ => contains c punctuation
  end.

(** A token that [correct_text] gives back: one that is left alone, or one
    that does not begin with punctuation and whose word the engine keeps. *)
Definition clean (d : SymSpell) (token : str) : Prop :=
  left_alone token \/
  (begins_with_punctuation token = false /\ keeps d (word_of token)).

(** The tokens that are not whitespace. *)
Definition words (tokens : list str) : list str :=
  List.filter (fun token => negb (isspace token)) tokens.

(** A line of standard input that the command loop passes over. *)
Definition blank (line : str) : bool := forallb c_isspace line.

(** The lines that are due a response. *)
Definition not_blank (lines : list str) : list str :=
  List.filter (fun line => negb (blank line)) lines.

(** The types of the responses of a classifier whose model is loaded. *)
Definition response_types : list str :=
  [py "classification"; py "error"; py "pong"; py "shutdown"].

Definition typed (response : Classifier.json) : Prop :=
  exists ty, ty ∈ response_types /\
    Classifier.response_type response = Some (Classifier.JString ty).

(** The value of the member [key] of a response. *)
Definition member (key : string) (response : Classifier.json) : option Classifier.json :=
  match response with
  | Classifier.JObject members => Classifier.dict_get (py key) members
  | _ => None
  end.

End Lang.

(* ===================================================================== *)
(** * The tokenizer                                                       *)
(* ===================================================================== *)

Section Tokenizer.
Import PyStr Re SpellChecker Props.

Lemma span_app (p : ascii -> bool) (s : str) :
  fst (span p s) ++ snd (span p s) = s.
Proof.
  induction s as [|c s IH]; simpl; [reflexivity|].
  destruct (p c); [|reflexivity].
  destruct (span p s) as [m rest]; simpl in *. now rewrite IH.
Qed.

Lemma span_all (p : ascii -> bool) (s : str) :
  forallb p (fst (span p s)) = true.
Proof.
  induction s as [|c s IH]; simpl; [reflexivity|].
  destruct (p c) eqn:Hc; [|reflexivity].
  destruct (span p s) as [m rest]; simpl in *. now rewrite Hc, IH.
Qed.

(** A greedy run stops at the end or at a character outside the class. *)
Lemma span_rest (p : ascii -> bool) (s : str) :
  match snd (span p s) with
  | [] => True
  | c :: _ => p c = false
  end.
Proof.
  induction s as [|c s IH]; simpl; [exact I|].
  destruct (p c) eqn:Hc; simpl; [|exact Hc].
  destruct (span p s) as [m rest]; simpl in *. exact IH.
Qed.

Lemma span_head (p : ascii -> bool) (c : ascii) (s : str) :
  p c = true -> exists m, fst (span p (c :: s)) = c :: m.
Proof.
  intros Hc. simpl. rewrite Hc. destruct (span p s) as [m rest]. now exists m.
Qed.

Lemma forallb_pointwise (p q : ascii -> bool) (s : str) :
  (forall c, p c = q c) -> forallb p s = forallb q s.
Proof.
  intros Hpq. induction s as [|c s IH]; simpl; [reflexivity|].
  now rewrite Hpq, IH.
Qed.

Lemma run_class_of_run (b : bool) (c : ascii) (m : str) :
  c_isspace c = b ->
  forallb (fun d => Bool.eqb (c_isspace d) b) m = true ->
  run_class (c :: m) = Some b.
Proof.
  intros <- Hall. unfold run_class. now rewrite Hall.
Qed.

(** What one attempt of the pattern yields on a non-empty string: a
    non-empty run of the class of the first character, followed by the end
    of the string or by a character of the other class. *)
Lemma match_token_run (c : ascii) (s : str) :
  exists m rest,
    match_token (c :: s) = Some (c :: m, rest) /\
    (c :: m) ++ rest = c :: s /\
    run_class (c :: m) = Some (c_isspace c) /\
    match rest with
    | [] => True
    | c' :: _ => c_isspace c' = negb (c_isspace c)
    end.
Proof.
  unfold match_token.
  destruct (c_isspace c) eqn:Hc.
  - (* whitespace first: [\S+] takes nothing, [\s+] takes the run *)
    assert (Hnone : span (fun c => negb (c_isspace c)) (c :: s) = ([], c :: s))
      by (simpl; now rewrite Hc).
    rewrite Hnone.
    pose proof (span_app c_isspace (c :: s)) as Happ.
    pose proof (span_all c_isspace (c :: s)) as Hall.
    pose proof (span_rest c_isspace (c :: s)) as Hrest.
    destruct (span_head c_isspace c s Hc) as [m Hm].
    destruct (span c_isspace (c :: s)) as [m' rest]; simpl in *; subst m'.
    exists m, rest.
    split; [reflexivity|]. split; [exact Happ|]. split.
    + apply run_class_of_run; [assumption|].
      simpl in Hall. rewrite ?Hc in Hall. simpl in Hall.
      rewrite (forallb_pointwise _ c_isspace m); [exact Hall|].
      intros d. now destruct (c_isspace d).
    + destruct rest as [|c' ?]; [exact I|]. exact Hrest.
  - set (p := fun c => negb (c_isspace c)).
    assert (Hp : p c = true) by (unfold p; now rewrite Hc).
    pose proof (span_app p (c :: s)) as Happ.
    pose proof (span_all p (c :: s)) as Hall.
    pose proof (span_rest p (c :: s)) as Hrest.
    destruct (span_head p c s Hp) as [m Hm].
    destruct (span p (c :: s)) as [m' rest]; simpl in *; subst m'.
    exists m, rest.
    split; [reflexivity|]. split; [exact Happ|]. split.
    + apply run_class_of_run; [assumption|].
      simpl in Hall. rewrite ?Hp in Hall. simpl in Hall.
      rewrite (forallb_pointwise _ p m); [exact Hall|].
      intros d. unfold p. now destruct (c_isspace d).
    + destruct rest as [|c' ?]; [exact I|].
      unfold p in Hrest. now destruct (c_isspace c').
Qed.

(** With enough fuel the scan covers its input with alternating runs, the
    first of the class of the first character. *)
Lemma findall_tokens_from_spec (fuel : nat) (s : str) :
  length s <= fuel ->
  concat (findall_tokens_from fuel s) = s /\
  alternating_runs (findall_tokens_from fuel s) /\
  match s with
  | [] => findall_tokens_from fuel s = []
  | c :: _ =>
      exists token rest,
        findall_tokens_from fuel s = token :: rest /\
        run_class token = Some (c_isspace c)
  end.
Proof.
  revert s. induction fuel as [|fuel IH]; intros s Hlen.
  - destruct s; [|simpl in Hlen; lia]. simpl. auto.
  - destruct s as [|c s]; [simpl; auto|].
    destruct (match_token_run c s) as (m & rest & Hmatch & Happ & Hclass & Hnext).
    cbn [findall_tokens_from]. rewrite Hmatch.
    assert (Hrest : length rest <= fuel).
    { apply (f_equal length) in Happ. rewrite length_app in Happ.
      simpl in Happ, Hlen. lia. }
    destruct (IH rest Hrest) as (Hcat & Halt & Hhead).
    split; [|split].
    + cbn [concat]. rewrite Hcat. exact Happ.
    + cbn [alternating_runs]. split; [rewrite Hclass; eauto|]. split; [|exact Halt].
      destruct rest as [|c' rest'].
      * now rewrite Hhead.
      * destruct Hhead as (token & more & -> & Hc'). rewrite Hclass, Hc', Hnext.
        intros [=E]. now destruct (c_isspace c).
    + exists (c :: m), (findall_tokens_from fuel rest). auto.
Qed.

(** The tokens of a text, joined, are the text. *)
Lemma _tokenize_join (text : str) : join (_tokenize text) = text.
Proof.
  unfold _tokenize, findall_tokens, join.
  now destruct (findall_tokens_from_spec (length text) text (le_n _)) as (Hcat & _).
Qed.

(** C4 -- Tokenizer losslessness.  For every input string, concatenating
    in order the tokens produced by [_tokenize] gives back the input; the
    tokens are non-empty runs of whitespace or of non-whitespace, each next
    to runs of the other class only (so each run is maximal and the runs
    alternate); the empty input yields no token. *)
Theorem C4_tokenize_lossless (text : str) :
  join (_tokenize text) = text /\
  alternating_runs (_tokenize text) /\
  _tokenize [] = [].
Proof.
  unfold _tokenize, findall_tokens, join.
  destruct (findall_tokens_from_spec (length text) text (le_n _)) as (Hcat & Halt & _).
  auto.
Qed.

End Tokenizer.

(* ===================================================================== *)
(** * Computations                                                        *)
(* ===================================================================== *)

Section Computations.

Lemma bind_ret {A B} (a : A) (k : A -> M B) : bind (ret a) k = k a.
Proof. unfold bind, ret. now destruct (k a). Qed.

Lemma bind_lookup {B} (d : SymSpell) (phrase : str) (v : Verbosity) (n : Z)
    (k : list SuggestItem -> M B) :
  bind (sym_lookup d phrase v n) k =
  (value (k (lookup d phrase v n)),
   Lookup phrase v n :: calls (k (lookup d phrase v n))).
Proof.
  unfold bind, sym_lookup, value, calls.
  now destruct (k (lookup d phrase v n)).
Qed.

Lemma value_bind_ok {A B} (m : M A) (k : A -> M B) (a : A) :
  value m = Ok a -> value (bind m k) = value (k a).
Proof.
  destruct m as [r log]. unfold value. simpl. intros ->.
  now destruct (k a).
Qed.

Lemma calls_bind_ok {A B} (m : M A) (k : A -> M B) (a : A) :
  value m = Ok a -> calls (bind m k) = calls m ++ calls (k a).
Proof.
  destruct m as [r log]. unfold value, calls. simpl. intros ->.
  now destruct (k a).
Qed.

End Computations.

(* ===================================================================== *)
(** * Characters and case                                                 *)
(* ===================================================================== *)

Section Characters.
Import PyStr Props.

Lemma in_range_spec (lo hi c : ascii) :
  in_range lo hi c = true <-> (ord lo <= ord c /\ ord c <= ord hi)%N.
Proof.
  unfold in_range. rewrite andb_true_iff, !N.leb_le. reflexivity.
Qed.

(** No character is of both cases. *)
Lemma upper_not_lower (c : ascii) : c_isupper c = true -> c_islower c = false.
Proof.
  unfold c_isupper, c_islower. intros [_ Hhi]%in_range_spec.
  apply not_true_is_false. intros [Hlo _]%in_range_spec.
  change (ord "Z") with 90%N in Hhi. change (ord "a") with 97%N in Hlo. lia.
Qed.

(** Lowercasing leaves a string without uppercase letters as it is. *)
Lemma lower_without_upper (s : str) :
  existsb c_isupper s = false -> lower s = s.
Proof.
  induction s as [|c s IH]; simpl; [reflexivity|].
  intros [Hc Hs]%orb_false_iff. unfold c_lower. rewrite Hc. f_equal. now apply IH.
Qed.

(** A string made of uppercase letters only is [isupper]. *)
Lemma isupper_all_uppercase (s : str) :
  s <> [] -> Forall (fun c => c_isupper c = true) s -> isupper s = true.
Proof.
  intros Hne Hall. unfold isupper. apply andb_true_iff. split.
  - destruct s as [|c s]; [congruence|]. simpl.
    now rewrite (Forall_inv Hall).
  - apply negb_true_iff. clear Hne.
    induction Hall as [|c s Hc _ IH]; simpl; [reflexivity|].
    now rewrite (upper_not_lower c Hc), IH.
Qed.

End Characters.

(* ===================================================================== *)
(** * The correction engine                                               *)
(* ===================================================================== *)

Section Engine.
Import PyStr Re SpellChecker Props.

Lemma _word_exists_in_dictionary_eq (d : SymSpell) (word : str) :
  _word_exists_in_dictionary d word =
  (Ok (known_word d word), [Lookup (lower word) TOP 0]).
Proof.
  unfold _word_exists_in_dictionary, known_word. now rewrite bind_lookup.
Qed.

(** [_preserve_case] asks the dictionary nothing. *)
Lemma _preserve_case_calls (original corrected : str) :
  calls (_preserve_case original corrected) = [].
Proof.
  unfold _preserve_case. destruct (isupper original); [reflexivity|].
  destruct original as [|c ?]; [reflexivity|]. now destruct (c_isupper c).
Qed.

(** On a non-empty original [_preserve_case] returns. *)
Lemma _preserve_case_returns (original corrected : str) :
  original <> [] ->
  exists s, value (_preserve_case original corrected) = Ok s.
Proof.
  intros Hne. unfold _preserve_case. destruct (isupper original); [eauto|].
  destruct original as [|c ?]; [congruence|]. destruct (c_isupper c); eauto.
Qed.

(** The engine, branch by branch. *)
Lemma _apply_correction_eq (d : SymSpell) (word : str) :
  _apply_correction d word =
  if known_word d word then (Ok word, [Lookup (lower word) TOP 0])
  else
    (match lookup d (lower word) CLOSEST 2 with
     | [] => Ok word
     | top :: _ =>
         if _is_minor_typo word top then Ok word
         else value (_preserve_case word (term top))
     end,
     [Lookup (lower word) TOP 0; Lookup (lower word) CLOSEST 2]).
Proof.
  unfold _apply_correction. rewrite _word_exists_in_dictionary_eq.
  unfold bind at 1. destruct (known_word d word); [reflexivity|].
  unfold _get_suggestions. rewrite bind_lookup. cbn [app]. f_equal.
  - destruct (lookup d (lower word) CLOSEST 2) as [|top ?]; [reflexivity|].
    now destruct (_is_minor_typo word top).
  - f_equal. destruct (lookup d (lower word) CLOSEST 2) as [|top ?]; [reflexivity|].
    destruct (_is_minor_typo word top); [reflexivity|].
    now rewrite _preserve_case_calls.
Qed.

(** The engine returns on every non-empty word. *)
Lemma _apply_correction_returns (d : SymSpell) (word : str) :
  word <> [] -> exists s, value (_apply_correction d word) = Ok s.
Proof.
  intros Hne. rewrite _apply_correction_eq.
  destruct (known_word d word); [eauto|]. unfold value. simpl.
  destruct (lookup d (lower word) CLOSEST 2) as [|top ?]; [eauto|].
  destruct (_is_minor_typo word top); [eauto|].
  now apply _preserve_case_returns.
Qed.

(** Its calls are lookups of the lowercased word. *)
Lemma _apply_correction_calls (d : SymSpell) (word : str) (c : call) :
  c ∈ calls (_apply_correction d word) -> call_phrase c = lower word.
Proof.
  rewrite _apply_correction_eq. unfold calls.
  destruct (known_word d word); simpl; rewrite ?elem_of_cons, elem_of_nil;
    intros H; decompose [or] H; subst; try reflexivity; contradiction.
Qed.

(** C7 -- High-frequency short circuit.  For every word whose lowercased
    form the dictionary returns at edit distance zero with a frequency
    count above 1000, the engine returns the word unchanged, and the only
    dictionary call it makes is that exact lookup: the ranked suggestions
    are not asked for. *)
Theorem C7_high_frequency_short_circuit
    (d : SymSpell) (word : str) (item : SuggestItem) (others : list SuggestItem) :
  lookup d (lower word) TOP 0 = item :: others ->
  (1000 < count item)%Z ->
  _apply_correction d word = (Ok word, [Lookup (lower word) TOP 0]).
Proof.
  intros Hlookup Hcount. rewrite _apply_correction_eq.
  unfold known_word. rewrite Hlookup.
  now apply Z.ltb_lt in Hcount as ->.
Qed.

Lemma C7_high_frequency_short_circuit_witness :
  lookup (holding (py "hello") 5000) (lower (py "Hello")) TOP 0
    = [mkSuggestItem (py "hello") 0 5000] /\
  _apply_correction (holding (py "hello") 5000) (py "Hello")
    = (Ok (py "Hello"), [Lookup (py "hello") TOP 0]).
Proof.
  split; [reflexivity|].
  apply (C7_high_frequency_short_circuit (holding (py "hello") 5000) (py "Hello")
           (mkSuggestItem (py "hello") 0 5000) []); [reflexivity | reflexivity].
Defined.

(** When the guard fires the word is kept. *)
Lemma _apply_correction_minor_typo (d : SymSpell) (word : str)
    (top : SuggestItem) (others : list SuggestItem) :
  lookup d (lower word) CLOSEST 2 = top :: others ->
  _is_minor_typo word top = true ->
  value (_apply_correction d word) = Ok word.
Proof.
  intros Hlookup Hminor. rewrite _apply_correction_eq.
  destruct (known_word d word); [reflexivity|].
  unfold value. simpl. now rewrite Hlookup, Hminor.
Qed.

(** When it does not, and the word is not a known one, the top suggestion
    replaces it. *)
Lemma _apply_correction_replaces (d : SymSpell) (word : str)
    (top : SuggestItem) (others : list SuggestItem) :
  known_word d word = false ->
  lookup d (lower word) CLOSEST 2 = top :: others ->
  _is_minor_typo word top = false ->
  value (_apply_correction d word) = value (_preserve_case word (term top)).
Proof.
  intros Hknown Hlookup Hminor. rewrite _apply_correction_eq, Hknown.
  unfold value at 1. simpl. now rewrite Hlookup, Hminor.
Qed.

(** C1 (as the code has it) -- Minor-typo guard.  For every word of length
    at least 4 whose top suggestion is at edit distance exactly 1 and whose
    set of distinct characters (lowercased) differs from the set of
    distinct characters of the suggestion's term, the engine returns the
    original word unchanged. *)
Theorem C1_minor_typo_guard
    (d : SymSpell) (word : str) (top : SuggestItem) (others : list SuggestItem) :
  4 <= length word ->
  lookup d (lower word) CLOSEST 2 = top :: others ->
  distance top = 1%Z ->
  set (lower word) <> set (term top) ->
  value (_apply_correction d word) = Ok word.
Proof.
  intros Hlen Hlookup Hdist Hsets.
  apply (_apply_correction_minor_typo d word top others Hlookup).
  unfold _is_minor_typo. apply Nat.leb_le in Hlen. rewrite Hdist, Hlen.
  now apply bool_decide_eq_true_2.
Qed.

Lemma C1_minor_typo_guard_witness :
  (4 <= length (py "wrld") /\
   lookup wrld_to_world (lower (py "wrld")) CLOSEST 2
     = [mkSuggestItem (py "world") 1 7000] /\
   set (lower (py "wrld")) <> set (py "world")) /\
  value (_apply_correction wrld_to_world (py "wrld")) = Ok (py "wrld").
Proof.
  assert (Hsets : set (lower (py "wrld")) <> set (py "world")).
  { apply (bool_decide_eq_true_1 _). vm_compute. reflexivity. }
  split; [split; [simpl; lia | split; [reflexivity | exact Hsets]]|].
  apply (C1_minor_typo_guard wrld_to_world (py "wrld")
           (mkSuggestItem (py "world") 1 7000) []);
    [simpl; lia | reflexivity | reflexivity | exact Hsets].
Defined.

(** The claim as the specification words it fails on its own example: the
    word [aabb] has four letters, its top suggestion [abab] is at distance
    1 and has the same letters, and the engine replaces the word. *)
Lemma C1_equal_sets_counterexample :
  4 <= length (py "aabb") /\
  lookup aabb_to_abab (lower (py "aabb")) CLOSEST 2
    = [mkSuggestItem (py "abab") 1 10] /\
  set (lower (py "aabb")) = set (py "abab") /\
  value (_apply_correction aabb_to_abab (py "aabb")) = Ok (py "abab").
Proof.
  split; [simpl; lia|]. split; [reflexivity|]. split.
  - apply (bool_decide_eq_true_1 _). vm_compute. reflexivity.
  - vm_compute. reflexivity.
Qed.

End Engine.

(* ===================================================================== *)
(** * Case preservation                                                   *)
(* ===================================================================== *)

Section CasePreservation.
Import PyStr Re SpellChecker Props.

(** C5 (as the code has it) -- Case preservation.  For a non-empty
    [original], [_preserve_case original corrected] asks the dictionary
    nothing and returns: [corrected] uppercased when [original] has an
    uppercase letter and no lowercase one, in particular when it is made of
    uppercase letters only; otherwise, when the first character of
    [original] is uppercase, [corrected] capitalized, that is its first
    character uppercased and the others lowercased (the others are as the
    dictionary returned them when none of them is uppercase); otherwise
    [corrected] itself.  With a dictionary that does not hold [teh] as a
    known word and proposes [the] first, the engine turns [TEH] into [THE],
    [Teh] into [The] and [teh] into [the]. *)
Theorem C5_case_preservation (original corrected : str) :
  original <> [] ->
  calls (_preserve_case original corrected) = [] /\
  (Forall (fun c => c_isupper c = true) original ->
     value (_preserve_case original corrected) = Ok (upper corrected)) /\
  (isupper original = true ->
     value (_preserve_case original corrected) = Ok (upper corrected)) /\
  (isupper original = false ->
     forall c rest, original = c :: rest ->
       value (_preserve_case original corrected)
         = Ok (if c_isupper c then capitalize corrected else corrected)) /\
  (forall c rest, corrected = c :: rest ->
     capitalize corrected = c_upper c :: lower rest /\
     (existsb c_isupper rest = false -> capitalize corrected = c_upper c :: rest)) /\
  (forall (d : SymSpell) (top : SuggestItem) (others : list SuggestItem),
     known_word d (py "teh") = false ->
     lookup d (py "teh") CLOSEST 2 = top :: others ->
     term top = py "the" ->
     value (_apply_correction d (py "TEH")) = Ok (py "THE") /\
     value (_apply_correction d (py "Teh")) = Ok (py "The") /\
     value (_apply_correction d (py "teh")) = Ok (py "the")).
Proof.
  intros Hne.
  assert (Hupper : isupper original = true ->
            value (_preserve_case original corrected) = Ok (upper corrected)).
  { intros H. unfold _preserve_case. now rewrite H. }
  split; [apply _preserve_case_calls|].
  split; [intros Hall; apply Hupper; now apply isupper_all_uppercase|].
  split; [exact Hupper|].
  split; [|split].
  - intros H c rest ->. unfold _preserve_case. rewrite H.
    now destruct (c_isupper c).
  - intros c rest ->. split; [reflexivity|].
    intros Hrest. simpl. now rewrite (lower_without_upper rest Hrest).
  - intros d top others Hknown Hlookup Hterm.
    assert (Hminor : forall w, length w = 3 -> _is_minor_typo w top = false).
    { intros w Hw. unfold _is_minor_typo. rewrite Hw.
      now destruct (distance top =? 1)%Z. }
    split; [|split].
    + rewrite (_apply_correction_replaces d (py "TEH") top others);
        [rewrite Hterm; reflexivity | exact Hknown | exact Hlookup | now apply Hminor].
    + rewrite (_apply_correction_replaces d (py "Teh") top others);
        [rewrite Hterm; reflexivity | exact Hknown | exact Hlookup | now apply Hminor].
    + rewrite (_apply_correction_replaces d (py "teh") top others);
        [rewrite Hterm; reflexivity | exact Hknown | exact Hlookup | now apply Hminor].
Qed.

Lemma C5_case_preservation_witness :
  py "Teh" <> [] /\
  value (_preserve_case (py "Teh") (py "the")) = Ok (py "The") /\
  value (_apply_correction teh_to_the (py "TEH")) = Ok (py "THE") /\
  value (_apply_correction teh_to_the (py "Teh")) = Ok (py "The") /\
  value (_apply_correction teh_to_the (py "teh")) = Ok (py "the").
Proof.
  assert (Hne : py "Teh" <> []) by discriminate.
  destruct (C5_case_preservation (py "Teh") (py "the") Hne)
    as (_ & _ & _ & Hfirst & _ & Hexamples).
  split; [exact Hne|]. split.
  - exact (Hfirst eq_refl "T"%char (py "eh") eq_refl).
  - exact (Hexamples teh_to_the (mkSuggestItem (py "the") 1 23135851162) []
             eq_refl eq_refl eq_refl).
Defined.

(** The claim as the specification words it fails twice.  With a first
    character in uppercase, the characters after the first are lowercased,
    not kept: [tHe] becomes [The], not [THe].  And an original that is not
    made of uppercase letters only can still take the first branch: [A1]
    turns [ai] into [AI], not [Ai]. *)
Lemma C5_rest_not_kept_counterexample :
  (isupper (py "Teh") = false /\ c_isupper "T" = true /\
   value (_preserve_case (py "Teh") (py "tHe")) = Ok (py "The") /\
   c_upper "t" :: py "He" = py "THe") /\
  (forallb c_isupper (py "A1") = false /\ c_isupper "A" = true /\
   value (_preserve_case (py "A1") (py "ai")) = Ok (py "AI") /\
   c_upper "a" :: py "i" = py "Ai").
Proof. repeat split; reflexivity. Qed.

End CasePreservation.

(* ===================================================================== *)
(** * The pipeline                                                        *)
(* ===================================================================== *)

Section Pipeline.
Import PyStr Re SpellChecker Props.

Lemma left_alone_cases (token : str) :
  left_alone token ->
  isspace token = true \/ _should_skip_correction (word_of token) = true.
Proof.
  unfold left_alone, _should_skip_correction.
  destruct (word_of token) as [|c w] eqn:Hw; [tauto|].
  intros [H|[H|H]]; [now left | discriminate |]. right.
  decompose [or] H; clear H;
    repeat match goal with H : _ = true |- _ => rewrite H; clear H end;
    rewrite ?orb_true_r; reflexivity.
Qed.

(** A token that is left alone comes back as it is, without a call. *)
Lemma _correct_token_left_alone (d : SymSpell) (token : str) :
  left_alone token -> _correct_token d token = ret token.
Proof.
  intros H. apply left_alone_cases in H. unfold _correct_token.
  destruct (isspace token); [reflexivity|].
  destruct H as [H|H]; [discriminate|].
  unfold word_of in H. destruct (_extract_word token) as [word trailing].
  simpl in H. now rewrite H.
Qed.

(** A token that reaches the engine. *)
Lemma _correct_token_engine (d : SymSpell) (token : str) :
  isspace token = false ->
  _should_skip_correction (word_of token) = false ->
  _correct_token d token =
  (corrected_word <- _apply_correction d (word_of token) ;;
   ret (corrected_word ++ drop (length (word_of token)) token)).
Proof.
  intros Hspace Hskip. unfold _correct_token, word_of, _extract_word in *.
  simpl in *. now rewrite Hspace, Hskip.
Qed.

Lemma _should_skip_correction_empty : _should_skip_correction [] = true.
Proof. reflexivity. Qed.

(** [_correct_token] returns on every token. *)
Lemma _correct_token_returns (d : SymSpell) (token : str) :
  exists piece, value (_correct_token d token) = Ok piece.
Proof.
  destruct (isspace token) eqn:Hspace.
  { exists token. unfold _correct_token. now rewrite Hspace. }
  destruct (_should_skip_correction (word_of token)) eqn:Hskip.
  { exists token. unfold _correct_token, word_of in *. rewrite Hspace.
    destruct (_extract_word token) as [word trailing]. simpl in Hskip.
    now rewrite Hskip. }
  rewrite (_correct_token_engine d token Hspace Hskip).
  destruct (_apply_correction_returns d (word_of token)) as [w Hw].
  { intros E. rewrite E in Hskip. discriminate. }
  exists (w ++ drop (length (word_of token)) token).
  now rewrite (value_bind_ok _ _ w Hw).
Qed.

(** The calls of [_correct_token] are the engine's, on a word that passed
    the filter. *)
Lemma _correct_token_calls (d : SymSpell) (token : str) (c : call) :
  c ∈ calls (_correct_token d token) ->
  _should_skip_correction (word_of token) = false /\
  call_phrase c = lower (word_of token).
Proof.
  destruct (isspace token) eqn:Hspace.
  { unfold _correct_token. rewrite Hspace. simpl. now intros ?%elem_of_nil. }
  destruct (_should_skip_correction (word_of token)) eqn:Hskip.
  { unfold _correct_token, word_of in *. rewrite Hspace.
    destruct (_extract_word token) as [word trailing]. simpl in Hskip.
    rewrite Hskip. simpl. now intros ?%elem_of_nil. }
  rewrite (_correct_token_engine d token Hspace Hskip).
  destruct (_apply_correction_returns d (word_of token)) as [w Hw].
  { intros E. rewrite E in Hskip. discriminate. }
  rewrite (calls_bind_ok _ _ w Hw). simpl. rewrite app_nil_r.
  intros Hc. split; [reflexivity|]. now apply (_apply_correction_calls d).
Qed.

(** The list comprehension over the tokens: it returns the corrections,
    place by place. *)
Lemma mapM_correct_token (d : SymSpell) (tokens : list str) :
  exists pieces,
    value (mapM (_correct_token d) tokens) = Ok pieces /\
    corrections_of d tokens pieces.
Proof.
  induction tokens as [|token tokens (pieces & Hpieces & Hall)].
  - exists []. split; [reflexivity|constructor].
  - destruct (_correct_token_returns d token) as [piece Hpiece].
    exists (piece :: pieces). split; [|now constructor].
    cbn [mapM]. rewrite (value_bind_ok _ _ piece Hpiece).
    now rewrite (value_bind_ok _ _ pieces Hpieces).
Qed.

(** Every call of the comprehension is a call made for one of the tokens. *)
Lemma mapM_calls {A B} (f : A -> M B) (xs : list A) (c : call) :
  c ∈ calls (mapM f xs) -> exists x, x ∈ xs /\ c ∈ calls (f x).
Proof.
  induction xs as [|x xs IH]; cbn [mapM].
  - simpl. now intros ?%elem_of_nil.
  - unfold bind at 1. destruct (f x) as [[y|e] log] eqn:Hfx.
    + destruct (mapM f xs) as [[ys|e] log'] eqn:Hrest; simpl;
        rewrite ?app_nil_r; intros [Hc|Hc]%elem_of_app.
      * exists x. split; [left|]. now rewrite Hfx.
      * destruct (IH Hc) as (x' & Hx' & Hc'). exists x'. split; [now right|assumption].
      * exists x. split; [left|]. now rewrite Hfx.
      * destruct (IH Hc) as (x' & Hx' & Hc'). exists x'. split; [now right|assumption].
    + simpl. intros Hc. exists x. split; [left|]. now rewrite Hfx.
Qed.

(** The text that [correct_text] returns when there is a dictionary. *)
Lemma correct_text_pieces (d : SymSpell) (text : str) :
  exists pieces,
    value (correct_text (mkSpellChecker (Some d)) text) = Ok (join pieces) /\
    corrections_of d (_tokenize text) pieces.
Proof.
  destruct (mapM_correct_token d (_tokenize text)) as (pieces & Hpieces & Hall).
  exists pieces. split; [|exact Hall].
  unfold correct_text. simpl. now rewrite (value_bind_ok _ _ pieces Hpieces).
Qed.

(** [correct_text] on a text that is one token bound for the engine. *)
Lemma correct_text_one_token (d : SymSpell) (token word trailing corrected : str) :
  _tokenize token = [token] ->
  isspace token = false ->
  _extract_word token = (word, trailing) ->
  _should_skip_correction word = false ->
  value (_apply_correction d word) = Ok corrected ->
  value (correct_text (mkSpellChecker (Some d)) token) = Ok (corrected ++ trailing).
Proof.
  intros Htokens Hspace Hextract Hskip Hengine.
  unfold correct_text. simpl. rewrite Htokens. cbn [mapM].
  assert (Htoken : value (_correct_token d token) = Ok (corrected ++ trailing)).
  { unfold _correct_token. rewrite Hspace, Hextract, Hskip.
    now rewrite (value_bind_ok _ _ corrected Hengine). }
  assert (Hpieces : value (mapM (_correct_token d) [token])
                    = Ok [corrected ++ trailing]).
  { cbn [mapM]. rewrite (value_bind_ok _ _ _ Htoken). now rewrite bind_ret. }
  rewrite (value_bind_ok _ _ _ Hpieces).
  unfold value, join. simpl. now rewrite app_nil_r.
Qed.

End Pipeline.

(* ===================================================================== *)
(** * Properties of the pipeline                                          *)
(* ===================================================================== *)

Section PipelineProperties.
Import PyStr Re SpellChecker Props.

Lemma _is_minor_typo_same_set (original : str) (top : SuggestItem) :
  set (lower original) = set (term top) -> _is_minor_typo original top = false.
Proof.
  intros Hsets. unfold _is_minor_typo.
  destruct ((distance top =? 1)%Z && (4 <=? length original)%nat); [|reflexivity].
  apply bool_decide_eq_false_2. intros Hne. now apply Hne.
Qed.

(** C2 -- Punctuation preservation, on the code.  With a dictionary that
    does not hold [helllo] as a known word and proposes [hello] first, the
    token [helllo,] becomes [hello,]; the token [(helllo)] becomes
    [helloo)]: what is reattached is the token from the length of the
    word on, and the opening parenthesis, stripped with the closing one,
    is counted on the wrong side. *)
Theorem C2_punctuation_on_the_code
    (d : SymSpell) (top : SuggestItem) (others : list SuggestItem) :
  known_word d (py "helllo") = false ->
  lookup d (py "helllo") CLOSEST 2 = top :: others ->
  term top = py "hello" ->
  value (correct_text (mkSpellChecker (Some d)) (py "helllo,")) = Ok (py "hello,") /\
  _extract_word (py "(helllo)") = (py "helllo", py "o)") /\
  value (correct_text (mkSpellChecker (Some d)) (py "(helllo)")) = Ok (py "helloo)").
Proof.
  intros Hknown Hlookup Hterm.
  assert (Hengine : value (_apply_correction d (py "helllo")) = Ok (py "hello")).
  { rewrite (_apply_correction_replaces d (py "helllo") top others Hknown Hlookup).
    - now rewrite Hterm.
    - apply _is_minor_typo_same_set. rewrite Hterm.
      apply (bool_decide_eq_true_1 _). vm_compute. reflexivity. }
  split; [|split].
  - apply (correct_text_one_token d (py "helllo,") (py "helllo") (py ",") (py "hello"));
      first [exact Hengine | vm_compute; reflexivity].
  - vm_compute. reflexivity.
  - apply (correct_text_one_token d (py "(helllo)") (py "helllo") (py "o)") (py "hello"));
      first [exact Hengine | vm_compute; reflexivity].
Qed.

Lemma C2_punctuation_on_the_code_witness :
  known_word helllo_to_hello (py "helllo") = false /\
  value (correct_text (mkSpellChecker (Some helllo_to_hello)) (py "helllo,"))
    = Ok (py "hello,") /\
  value (correct_text (mkSpellChecker (Some helllo_to_hello)) (py "(helllo)"))
    = Ok (py "helloo)").
Proof.
  destruct (C2_punctuation_on_the_code helllo_to_hello
              (mkSuggestItem (py "hello") 1 5000) [] eq_refl eq_refl eq_refl)
    as (Hcomma & _ & Hparen).
  split; [reflexivity|]. split; [exact Hcomma | exact Hparen].
Defined.

(** C3 -- Skip-list correctness.  Each input of the skip list, given to
    [correct_text] as the whole text, comes back unchanged, whatever the
    dictionary is and whether there is one, and the dictionary is not
    asked anything. *)
Theorem C3_skip_list :
  Forall (fun input => forall self : SpellChecker.t,
            correct_text self input = (Ok input, []))
         skip_list.
Proof.
  unfold skip_list.
  repeat (apply Forall_cons; split;
          [intros [[d|]]; vm_compute; reflexivity|]).
  apply Forall_nil. exact I.
Qed.

(** C6 -- Degradation to identity, on the code.  When the dictionary file
    is absent and is still absent after the download was tried, the checker
    holds no dictionary, [correct_text] returns every text as it is without
    a dictionary call, and [main] prints the text.  When the file is there
    and [load_dictionary] raises, nothing catches the exception: the
    constructor raises it and so does [main].  And with the index of a file
    without a readable row, a dictionary that knows no word, [correct_text]
    is not the identity on a token that begins with punctuation. *)
Theorem C6_dictionary_unavailable (fs : FileSystem) (text : str) :
  (dictionary_exists fs = false ->
   exists_after_download fs = false ->
   __init__ fs = Ok (mkSpellChecker None) /\
   correct_text (mkSpellChecker None) text = (Ok text, []) /\
   main fs (Ok text) = (Ok (text ++ ["010"]), [])) /\
  (forall e,
     dictionary_exists fs = true \/ exists_after_download fs = true ->
     load_dictionary fs = Raise e ->
     __init__ fs = Raise e /\
     main fs (Ok text) = (Raise e, [])) /\
  correct_text (mkSpellChecker (Some no_entries)) (py "(hi)")
    = (Ok (py "hii)"), [Lookup (py "hi") TOP 0; Lookup (py "hi") CLOSEST 2]).
Proof.
  split; [|split].
  - intros Hmissing Hfailed.
    unfold main, __init__, _create_spell_checker, correct_text.
    rewrite Hmissing, Hfailed. simpl. repeat split.
  - intros e Hpresent Hload.
    assert (Hinit : __init__ fs = Raise e).
    { unfold __init__, _create_spell_checker. rewrite Hload.
      destruct Hpresent as [-> | ->]; [reflexivity|].
      now destruct (dictionary_exists fs). }
    split; [exact Hinit|]. unfold main. now rewrite Hinit.
  - vm_compute. reflexivity.
Qed.

Lemma C6_dictionary_unavailable_witness :
  (__init__ (mkFileSystem false false (Ok helllo_to_hello)) = Ok (mkSpellChecker None) /\
   main (mkFileSystem false false (Ok helllo_to_hello)) (Ok (py "(helllo), teh"))
     = (Ok (py "(helllo), teh" ++ ["010"]), [])) /\
  (__init__ (mkFileSystem true false (Raise UnicodeDecodeError)) = Raise UnicodeDecodeError /\
   main (mkFileSystem true false (Raise UnicodeDecodeError)) (Ok (py "(helllo), teh"))
     = (Raise UnicodeDecodeError, [])).
Proof.
  split.
  - destruct (C6_dictionary_unavailable (mkFileSystem false false (Ok helllo_to_hello))
                (py "(helllo), teh")) as [Hmissing _].
    destruct (Hmissing eq_refl eq_refl) as (Hinit & _ & Hmain). now split.
  - destruct (C6_dictionary_unavailable (mkFileSystem true false (Raise UnicodeDecodeError))
                (py "(helllo), teh")) as (_ & Hraises & _).
    exact (Hraises UnicodeDecodeError (or_introl eq_refl) eq_refl).
Defined.

(** C9 -- Skipped tokens are identities.  For every token of a text that
    is whitespace only, or whose stripped word is empty, or whose word
    falls under one of the rules of the eligibility filter,
    [_correct_token] returns the token itself without a dictionary call,
    and the text returned by [correct_text] is the concatenation of one
    piece per token in which the piece at the place of that token is the
    token, leading punctuation included; this for every dictionary, and
    without one. *)
Theorem C9_skipped_tokens_identity
    (self : SpellChecker.t) (text token : str) (i : nat) :
  _tokenize text !! i = Some token ->
  left_alone token ->
  (forall d, _correct_token d token = (Ok token, [])) /\
  reproduced_at self text i token.
Proof.
  intros Hi Halone. split.
  { intros d. now apply _correct_token_left_alone. }
  destruct self as [[d|]].
  - destruct (correct_text_pieces d text) as (pieces & Hvalue & Hall).
    exists pieces. split; [exact Hvalue|].
    destruct (Forall2_lookup_l _ _ _ _ _ Hall Hi) as (piece & Hpiece & Hcorrect).
    rewrite (_correct_token_left_alone d token Halone) in Hcorrect.
    injection Hcorrect as <-.
    split; [exact Hpiece|]. split; [symmetry; exact (Forall2_length _ _ _ Hall)|].
    intros d' [= <-]. exact Hall.
  - exists (_tokenize text). unfold correct_text. simpl.
    rewrite (_tokenize_join text). split; [reflexivity|]. split; [exact Hi|].
    split; [reflexivity|]. intros d' [=].
Qed.

Lemma C9_skipped_tokens_identity_witness :
  (_tokenize (py "see (helllo) in  a/b") !! 6 = Some (py "a/b") /\
   _is_file_path (word_of (py "a/b")) = true) /\
  (forall d, _correct_token d (py "a/b") = (Ok (py "a/b"), [])) /\
  reproduced_at (mkSpellChecker (Some helllo_to_hello))
    (py "see (helllo) in  a/b") 6 (py "a/b").
Proof.
  assert (Hpath : _is_file_path (word_of (py "a/b")) = true) by reflexivity.
  split; [split; [reflexivity | exact Hpath]|].
  apply (C9_skipped_tokens_identity (mkSpellChecker (Some helllo_to_hello))
           (py "see (helllo) in  a/b") (py "a/b") 6); [reflexivity|].
  unfold left_alone. tauto.
Defined.















End PipelineProperties.

(* ===================================================================== *)
(** * The classifier's command loop                                       *)
(* ===================================================================== *)

Section CommandLoop.
Import PyStr Props Classifier.


(** The only result of [process_command] of type [shutdown] is the
    acknowledgement of a shutdown command. *)
Lemma process_command_shutdown (rt : Runtime) (pipe : option Pipeline)
    (command result : json) :
  process_command rt pipe command = inr result ->
  is_string "shutdown" (response_type result) = true ->
  result = shutdown_acknowledged.
Proof.
  destruct command as [| | | | |members]; try discriminate. simpl.
  destruct (is_string "classify" _).
  { intros [= <-]. unfold classify. destruct pipe as [run|]; [|discriminate].
    destruct (run _ _ _); discriminate. }
  destruct (is_string "ping" _); [intros [= <-]; discriminate|].
  destruct (is_string "shutdown" _); [now intros [= <-]|].
  intros [= <-]. discriminate.
Qed.

(** The loop ends at the end of the input or on an acknowledged shutdown. *)
Lemma command_loop_ends (rt : Runtime) (pipe : option Pipeline) (stdin : list str) :
  snd (command_loop rt pipe stdin) = [] \/
  last (fst (command_loop rt pipe stdin)) = Some shutdown_acknowledged.
Proof.
  assert (Hcons : forall (response : json) (written : list json) (unread : list str),
            unread = [] \/ last written = Some shutdown_acknowledged ->
            unread = [] \/ last (response :: written) = Some shutdown_acknowledged).
  { intros response written unread [H|H]; [now left|right].
    rewrite last_cons. now rewrite H. }
  induction stdin as [|line rest IH]; [now left|].
  cbn [command_loop].
  destruct (strip_whitespace line) as [|c line']; [exact IH|].
  destruct (json_loads rt (c :: line')) as [e|command].
  { destruct (command_loop rt pipe rest) as [written unread]. apply Hcons, IH. }
  destruct (process_command rt pipe command) as [e|result] eqn:Hresult.
  { destruct (command_loop rt pipe rest) as [written unread]. apply Hcons, IH. }
  destruct (is_string "shutdown" (response_type result)) eqn:Hshutdown.
  - right. simpl. f_equal. now apply (process_command_shutdown rt pipe command).
  - destruct (command_loop rt pipe rest) as [written unread]. apply Hcons, IH.
Qed.






(** On lines that are all read, [serve] writes what [command_loop] writes
    and leaves what it leaves. *)
Lemma serve_lines (rt : Runtime) (pipe : option Pipeline) (lines : list str) :
  fst (fst (serve rt pipe (map Line lines))) = fst (command_loop rt pipe lines) /\
  snd (fst (serve rt pipe (map Line lines))) = map Line (snd (command_loop rt pipe lines)).
Proof.
  induction lines as [|line rest [IHw IHu]]; [split; reflexivity|].
  cbn [map serve command_loop]. unfold handle_line.
  destruct (strip_whitespace line) as [|c line'].
  { destruct (serve rt pipe (map Line rest)) as [[written unread] how]. now simpl in *. }
  destruct (json_loads rt (c :: line')) as [e|command].
  { destruct (serve rt pipe (map Line rest)) as [[written unread] how].
    destruct (command_loop rt pipe rest). simpl in *. now subst. }
  destruct (process_command rt pipe command) as [e|result].
  { destruct (serve rt pipe (map Line rest)) as [[written unread] how].
    destruct (command_loop rt pipe rest). simpl in *. now subst. }
  destruct (is_string "shutdown" (response_type result)); [split; reflexivity|].
  destruct (serve rt pipe (map Line rest)) as [[written unread] how].
  destruct (command_loop rt pipe rest). simpl in *. now subst.
Qed.




End CommandLoop.

(* ===================================================================== *)
(** * What the patterns match                                             *)
(* ===================================================================== *)

Section Patterns.
Import PyStr Re SpellChecker Props Lang.

Lemma Matches_class (p : ascii -> bool) (s : str) :
  Matches (Class p) s <-> exists c, s = [c] /\ p c = true.
Proof.
  split.
  - intros H. inversion H; subst. eauto.
  - intros (c & -> & Hc). now constructor.
Qed.

Lemma Matches_seq (r1 r2 : regex) (s : str) :
  Matches (Seq r1 r2) s <->
  exists s1 s2, s = s1 ++ s2 /\ Matches r1 s1 /\ Matches r2 s2.
Proof.
  split.
  - intros H. inversion H; subst. eauto.
  - intros (s1 & s2 & -> & H1 & H2). now constructor.
Qed.

Lemma Matches_alt (r1 r2 : regex) (s : str) :
  Matches (Alt r1 r2) s <-> Matches r1 s \/ Matches r2 s.
Proof.
  split.
  - intros H. inversion H; subst; auto.
  - intros [H|H]; [apply MAltL | apply MAltR]; assumption.
Qed.

Lemma nullable_spec (r : regex) : nullable r = true <-> Matches r [].
Proof.
  split.
  - induction r as [| |p|r1 IH1 r2 IH2|r1 IH1 r2 IH2|r IH]; simpl; intros H;
      try discriminate.
    + constructor.
    + apply andb_true_iff in H as [H1 H2].
      change (Matches (Seq r1 r2) ([] ++ [])). constructor; auto.
    + apply orb_true_iff in H as [H|H]; [apply MAltL | apply MAltR]; auto.
    + constructor.
  - intros H. remember [] as s eqn:Hs.
    induction H as [|p c Hc|r1 r2 s1 s2 _ IH1 _ IH2|r1 r2 s _ IH|r1 r2 s _ IH| |];
      simpl; try reflexivity; try discriminate.
    + apply app_eq_nil in Hs as [-> ->]. now rewrite IH1, IH2.
    + now rewrite IH.
    + rewrite IH; [apply orb_true_r | assumption].
Qed.

Lemma deriv_sound (c : ascii) (r : regex) (s : str) :
  Matches (deriv c r) s -> Matches r (c :: s).
Proof.
  revert s. induction r as [| |p|r1 IH1 r2 IH2|r1 IH1 r2 IH2|r IH]; simpl; intros s H.
  - inversion H.
  - inversion H.
  - destruct (p c) eqn:Hc; inversion H; subst. now constructor.
  - assert (Hseq : Matches (Seq (deriv c r1) r2) s -> Matches (Seq r1 r2) (c :: s)).
    { intros (t1 & t2 & -> & Ht1 & Ht2)%Matches_seq.
      change (Matches (Seq r1 r2) ((c :: t1) ++ t2)). constructor; auto. }
    destruct (nullable r1) eqn:Hnull; [|now apply Hseq].
    apply Matches_alt in H as [H|H]; [now apply Hseq|].
    change (Matches (Seq r1 r2) ([] ++ c :: s)). constructor; auto.
    now apply nullable_spec.
  - apply Matches_alt in H as [H|H]; [apply MAltL | apply MAltR]; auto.
  - apply Matches_seq in H as (t1 & t2 & -> & Ht1 & Ht2).
    change (Matches (Star r) ((c :: t1) ++ t2)). constructor; auto.
Qed.

Lemma deriv_complete (c : ascii) (r : regex) (s : str) :
  Matches r (c :: s) -> Matches (deriv c r) s.
Proof.
  intros H. remember (c :: s) as cs eqn:Hcs. revert s Hcs.
  induction H as [|p c' Hc|r1 r2 s1 s2 H1 IH1 H2 IH2|r1 r2 t H IH|r1 r2 t H IH
                  |r|r s1 s2 H1 IH1 H2 IH2]; intros s Hcs; simpl.
  - discriminate.
  - injection Hcs as -> <-. rewrite Hc. constructor.
  - destruct s1 as [|c1 s1]; simpl in Hcs.
    + apply nullable_spec in H1. rewrite H1. apply MAltR. now apply IH2.
    + injection Hcs as -> <-.
      destruct (nullable r1); [apply MAltL|]; constructor; auto.
  - apply MAltL. now apply IH.
  - apply MAltR. now apply IH.
  - discriminate.
  - destruct s1 as [|c1 s1]; simpl in Hcs.
    + now apply IH2.
    + injection Hcs as -> <-. constructor; auto.
Qed.

(** The matcher by derivatives decides the language of the pattern. *)
Lemma fullmatch_spec (r : regex) (s : str) :
  fullmatch r s = true <-> Matches r s.
Proof.
  revert r. induction s as [|c s IH]; intros r; simpl.
  - apply nullable_spec.
  - rewrite IH. split; [apply deriv_sound | apply deriv_complete].
Qed.

Lemma Matches_star_class (p : ascii -> bool) (s : str) :
  Matches (Star (Class p)) s <-> forallb p s = true.
Proof.
  split.
  - intros H. remember (Star (Class p)) as r eqn:Hr.
    induction H as [| | | | | |r s1 s2 H1 _ H2 IH2]; try discriminate.
    + reflexivity.
    + injection Hr as ->. apply Matches_class in H1 as (c & -> & Hc).
      simpl. rewrite Hc. now apply IH2.
  - induction s as [|c s IH]; simpl; intros H; [constructor|].
    apply andb_true_iff in H as [Hc Hs].
    change (Matches (Star (Class p)) ([c] ++ s)). constructor; [now constructor|auto].
Qed.

(** [p+] matches the non-empty strings of characters of the class. *)
Lemma Matches_plus_class (p : ascii -> bool) (s : str) :
  Matches (Plus (Class p)) s <-> s <> [] /\ forallb p s = true.
Proof.
  unfold Plus. rewrite Matches_seq. split.
  - intros (s1 & s2 & -> & (c & -> & Hc)%Matches_class & H2%Matches_star_class).
    split; [discriminate|]. simpl. now rewrite Hc.
  - intros [Hne H]. destruct s as [|c s]; [congruence|]. simpl in H.
    apply andb_true_iff in H as [Hc Hs].
    exists [c], s. split; [reflexivity|].
    split; [now constructor | now apply Matches_star_class].
Qed.

Lemma Matches_star_any (s : str) : Matches (Star Any) s.
Proof. now apply Matches_star_class, forallb_forall. Qed.

Lemma Matches_chr (c : ascii) (s : str) : Matches (Chr c) s <-> s = [c].
Proof.
  unfold Chr. rewrite Matches_class. split.
  - now intros (c' & -> & ->%Ascii.eqb_eq).
  - intros ->. exists c. split; [reflexivity | apply Ascii.eqb_refl].
Qed.

Lemma Matches_lit (literal s : str) : Matches (Lit literal) s <-> s = literal.
Proof.
  revert s. induction literal as [|c literal IH]; intros s; simpl.
  - split; [intros H; now inversion H | intros ->; constructor].
  - rewrite Matches_seq. split.
    + now intros (s1 & s2 & -> & ->%Matches_chr & ->%IH).
    + intros ->. exists [c], literal. split; [reflexivity|].
      split; [now apply Matches_chr | now apply IH].
Qed.


(** A word that the acronym pattern finds has two capitals side by side. *)
Lemma acronym_capitals (word : str) :
  _is_acronym word = true -> adjacent_capitals word.
Proof.
  unfold _is_acronym, search, adjacent_capitals. rewrite fullmatch_spec.
  intros (pre & s & -> & _ & (t & post & -> & Ht & _)%Matches_seq)%Matches_seq.
  unfold AtLeast2, upper_AZ in Ht.
  apply Matches_seq in Ht as (s1 & m & -> & (a & -> & Ha)%Matches_class & Hm).
  apply Matches_plus_class in Hm as [Hne Hall].
  destruct m as [|b m]; [congruence|]. simpl in Hall.
  apply andb_true_iff in Hall as [Hb _].
  exists pre, a, b, (m ++ post). split; [|split; assumption].
  simpl. rewrite <- ?app_assoc. reflexivity.
Qed.

(** X1 -- The acronym rule holds of the words with two capitals [A-Z] side by
    side, and of no other word. *)
Theorem _is_acronym_adjacent_capitals (word : str) :
  _is_acronym word = true <-> adjacent_capitals word.
Proof.
  split; [apply acronym_capitals|].
  unfold _is_acronym, search, adjacent_capitals. rewrite fullmatch_spec.
  intros (pre & a & b & post & -> & Ha & Hb).
  apply Matches_seq. exists pre, (a :: b :: post).
  split; [reflexivity|]. split; [apply Matches_star_any|].
  apply Matches_seq. exists [a; b], post.
  split; [reflexivity|]. split; [|apply Matches_star_any].
  unfold AtLeast2, upper_AZ. apply Matches_seq. exists [a], [b].
  split; [reflexivity|]. split; [now constructor|].
  apply Matches_plus_class. split; [discriminate|]. simpl.
  unfold c_isupper in Hb. now rewrite Hb.
Qed.

(** X2 -- Every word the acronym rule catches is caught by the camel-case rule:
    the second of two capitals is a capital after the first character. *)
Theorem acronym_is_camel_case (word : str) :
  _is_acronym word = true -> _is_camel_case word = true.
Proof.
  intros H. apply acronym_capitals in H as (pre & a & b & post & -> & Ha & Hb).
  unfold _is_camel_case. apply andb_true_iff. split.
  - apply Nat.ltb_lt. rewrite length_app. simpl. lia.
  - destruct pre as [|p pre].
    + change (existsb c_isupper (b :: post) = true). simpl. now rewrite Hb.
    + change (existsb c_isupper (pre ++ a :: b :: post) = true).
      rewrite existsb_app. simpl. rewrite Hb. now rewrite !orb_true_r.
Qed.

Lemma acronym_is_camel_case_witness :
  _is_acronym (py "NASA") = true /\ _is_camel_case (py "NASA") = true.
Proof.
  split; [reflexivity|]. apply (acronym_is_camel_case (py "NASA")). reflexivity.
Defined.

Lemma Matches_code_literal (body : str) :
  Matches (Alt (Seq (Chr "#") (Plus hexdigit))
          (Alt (Seq (Lit (py "0x")) (Plus hexdigit))
               (Plus digit))) body
  <-> code_literal body.
Proof.
  unfold code_literal, hexdigit, digit. rewrite !Matches_alt.
  assert (Hcolour :
    Matches (Seq (Chr "#") (Plus (Class c_ishex))) body
    <-> exists h, body = "#" :: h /\ h <> [] /\ forallb c_ishex h = true).
  { rewrite Matches_seq. split.
    - intros (s1 & h & -> & ->%Matches_chr & Hh%Matches_plus_class). now exists h.
    - intros (h & -> & Hh). exists ["#"], h. split; [reflexivity|].
      split; [now apply Matches_chr | now apply Matches_plus_class]. }
  assert (Hhex :
    Matches (Seq (Lit (py "0x")) (Plus (Class c_ishex))) body
    <-> exists h, body = "0" :: "x" :: h /\ h <> [] /\ forallb c_ishex h = true).
  { rewrite Matches_seq. split.
    - intros (s1 & h & -> & ->%Matches_lit & Hh%Matches_plus_class). now exists h.
    - intros (h & -> & Hh). exists (py "0x"), h. split; [reflexivity|].
      split; [now apply Matches_lit | now apply Matches_plus_class]. }
  pose proof (Matches_plus_class c_isdigit body) as Hnumber.
  unfold c_ishex, c_isdigit in *. tauto.
Qed.

(** X3 -- The code-pattern rule holds of the hexadecimal colours, the [0x]
    literals and the decimal numbers, each possibly followed by one final
    newline, and of no other word. *)
Theorem _is_code_pattern_code_literal (word : str) :
  _is_code_pattern word = true <->
  exists body, (word = body \/ word = body ++ ["010"]) /\ code_literal body.
Proof.
  unfold _is_code_pattern, match_anchored. rewrite fullmatch_spec, Matches_seq.
  split.
  - intros (body & tail & -> & Hbody%Matches_code_literal & Htail).
    exists body. split; [|exact Hbody].
    apply Matches_alt in Htail as [Htail|Htail%Matches_chr].
    + inversion Htail. left. now rewrite app_nil_r.
    + right. now rewrite Htail.
  - intros (body & [-> | ->] & Hbody%Matches_code_literal).
    + exists body, []. split; [now rewrite app_nil_r|]. split; [exact Hbody|].
      apply MAltL. constructor.
    + exists body, ["010"]. split; [reflexivity|]. split; [exact Hbody|].
      apply MAltR. now apply Matches_chr.
Qed.

End Patterns.

(* ===================================================================== *)
(** * Stripping punctuation                                               *)
(* ===================================================================== *)

Section Stripping.
Import PyStr Re SpellChecker Props Lang.

Lemma lstrip_by_split (p : ascii -> bool) (s : str) :
  exists pre, s = pre ++ lstrip_by p s /\ forallb p pre = true.
Proof.
  induction s as [|c s (pre & Hs & Hpre)]; simpl.
  - now exists [].
  - destruct (p c) eqn:Hc.
    + exists (c :: pre). simpl. rewrite Hc, Hpre. split; [now f_equal|reflexivity].
    + now exists [].
Qed.

Lemma lstrip_by_head (p : ascii -> bool) (s : str) (c : ascii) :
  head (lstrip_by p s) = Some c -> p c = false.
Proof.
  induction s as [|c' s IH]; simpl; [discriminate|].
  destruct (p c') eqn:Hc'; [exact IH|]. simpl. now intros [= <-].
Qed.

Lemma lstrip_by_fixed (p : ascii -> bool) (s : str) :
  (forall c, head s = Some c -> p c = false) -> lstrip_by p s = s.
Proof.
  destruct s as [|c s]; simpl; [reflexivity|].
  intros H. now rewrite (H c eq_refl).
Qed.

Lemma forallb_reverse (p : ascii -> bool) (s : str) :
  forallb p (reverse s) = forallb p s.
Proof.
  induction s as [|c s IH]; [reflexivity|].
  rewrite reverse_cons, forallb_app, IH. simpl.
  rewrite andb_true_r. apply andb_comm.
Qed.

Lemma rstrip_by_split (p : ascii -> bool) (s : str) :
  exists post, s = rstrip_by p s ++ post /\ forallb p post = true.
Proof.
  unfold rstrip_by.
  destruct (lstrip_by_split p (reverse s)) as (pre & Hs & Hpre).
  exists (reverse pre). split; [|now rewrite forallb_reverse].
  rewrite <- reverse_app, <- Hs. symmetry. apply reverse_involutive.
Qed.

Lemma rstrip_by_last (p : ascii -> bool) (s : str) (c : ascii) :
  last (rstrip_by p s) = Some c -> p c = false.
Proof.
  unfold rstrip_by. rewrite last_reverse. apply lstrip_by_head.
Qed.

(** Stripping on the right keeps a first character that is not stripped. *)
Lemma rstrip_by_head (p : ascii -> bool) (s : str) (c : ascii) :
  head s = Some c -> p c = false -> head (rstrip_by p s) = Some c.
Proof.
  intros Hhead Hc. destruct (rstrip_by_split p s) as (post & Hs & Hpost).
  destruct (rstrip_by p s) as [|c' w]; simpl in Hs.
  - subst post. destruct s as [|c' s]; [discriminate|].
    injection Hhead as ->. simpl in Hpost. now rewrite Hc in Hpost.
  - rewrite Hs in Hhead. exact Hhead.
Qed.

Lemma strip_by_head (p : ascii -> bool) (s : str) (c : ascii) :
  head (strip_by p s) = Some c -> p c = false.
Proof.
  unfold strip_by. intros Hhead.
  destruct (lstrip_by p s) as [|c' l] eqn:Hl.
  - discriminate.
  - assert (Hc' : p c' = false) by (apply (lstrip_by_head p s); now rewrite Hl).
    rewrite (rstrip_by_head p (c' :: l) c' eq_refl Hc') in Hhead.
    now injection Hhead as <-.
Qed.

(** What [s.strip(...)] leaves: the middle of [s], between a prefix and a
    suffix of stripped characters, with no stripped character at its ends. *)
Lemma strip_by_split (p : ascii -> bool) (s : str) :
  exists pre post,
    s = pre ++ strip_by p s ++ post /\
    forallb p pre = true /\ forallb p post = true.
Proof.
  unfold strip_by.
  destruct (lstrip_by_split p s) as (pre & Hs & Hpre).
  destruct (rstrip_by_split p (lstrip_by p s)) as (post & Hl & Hpost).
  exists pre, post. split; [|split; assumption]. now rewrite <- Hl.
Qed.

(** The word of a token is the middle of the token. *)
Lemma word_of_split (token : str) :
  exists pre post,
    token = pre ++ word_of token ++ post /\
    forallb (fun c => contains c punctuation) pre = true /\
    forallb (fun c => contains c punctuation) post = true.
Proof. unfold word_of, _extract_word, strip. simpl. apply strip_by_split. Qed.

(** It does not begin with punctuation. *)
Lemma word_of_begins (token : str) :
  begins_with_punctuation (word_of token) = false.
Proof.
  unfold begins_with_punctuation, word_of, _extract_word, strip. simpl.
  set (p := fun c => contains c punctuation).
  destruct (strip_by p token) as [|c w] eqn:Hw; [reflexivity|].
  apply (strip_by_head p token). now rewrite Hw.
Qed.

(** Without punctuation in front, the token is the word and a rest. *)
Lemma word_of_prefix (token : str) :
  begins_with_punctuation token = false ->
  exists post,
    token = word_of token ++ post /\
    snd (_extract_word token) = post /\
    forallb (fun c => contains c punctuation) post = true.
Proof.
  intros Hbegin. unfold word_of, _extract_word, strip, strip_by. simpl.
  set (p := fun c => contains c punctuation).
  assert (Hfixed : lstrip_by p token = token).
  { apply lstrip_by_fixed. intros c Hc. destruct token as [|c' ?]; [discriminate|].
    injection Hc as ->. exact Hbegin. }
  rewrite Hfixed.
  destruct (rstrip_by_split p token) as (post & Htoken & Hpost).
  exists post. split; [exact Htoken|]. split; [|exact Hpost].
  rewrite Htoken at 2. apply drop_app_length.
Qed.

(** X4 -- [_extract_word]: the token is the word between a punctuation prefix and
    a punctuation suffix; the word neither begins nor ends with punctuation;
    what is returned with it is the token from the length of the word on, as
    many characters as the prefix and the suffix together. *)
Theorem _extract_word_decomposition (token : str) :
  exists pre post,
    token = pre ++ word_of token ++ post /\
    forallb (fun c => contains c punctuation) pre = true /\
    forallb (fun c => contains c punctuation) post = true /\
    begins_with_punctuation (word_of token) = false /\
    (forall c, last (word_of token) = Some c -> contains c punctuation = false) /\
    length (snd (_extract_word token)) = length pre + length post.
Proof.
  destruct (word_of_split token) as (pre & post & Htoken & Hpre & Hpost).
  exists pre, post. split; [exact Htoken|]. split; [exact Hpre|]. split; [exact Hpost|].
  split; [apply word_of_begins|]. split.
  - intros c. unfold word_of, _extract_word, strip, strip_by. simpl.
    apply rstrip_by_last.
  - assert (Hlen : length token = length pre + length (word_of token) + length post).
    { rewrite Htoken at 1. rewrite !length_app. lia. }
    change (snd (_extract_word token)) with (drop (length (word_of token)) token).
    rewrite length_drop. lia.
Qed.

(** X5 -- A token that does not begin with punctuation is the word followed by
    what [_extract_word] returns with it, which is punctuation only. *)
Theorem _extract_word_round_trip (token : str) :
  begins_with_punctuation token = false ->
  fst (_extract_word token) ++ snd (_extract_word token) = token /\
  forallb (fun c => contains c punctuation) (snd (_extract_word token)) = true.
Proof.
  intros Hbegin.
  destruct (word_of_prefix token Hbegin) as (post & Htoken & -> & Hpost).
  split; [|exact Hpost]. now rewrite Htoken at 2.
Qed.

Lemma _extract_word_round_trip_witness :
  begins_with_punctuation (py "helllo!?") = false /\
  _extract_word (py "helllo!?") = (py "helllo", py "!?") /\
  fst (_extract_word (py "helllo!?")) ++ snd (_extract_word (py "helllo!?"))
    = py "helllo!?".
Proof.
  split; [reflexivity|]. split; [reflexivity|].
  apply (_extract_word_round_trip (py "helllo!?")). reflexivity.
Defined.

(** X6 -- A token that begins with punctuation around a non-empty word is not
    what the word and the returned rest make together: they make a string of
    the same length that begins with the first character of the word. *)
Theorem _extract_word_leading_punctuation (token : str) :
  begins_with_punctuation token = true ->
  word_of token <> [] ->
  fst (_extract_word token) ++ snd (_extract_word token) <> token /\
  length (fst (_extract_word token) ++ snd (_extract_word token)) = length token.
Proof.
  intros Hbegin Hword.
  destruct (word_of_split token) as (pre & post & Htoken & _ & _).
  pose proof (word_of_begins token) as Hw.
  change (fst (_extract_word token)) with (word_of token).
  change (snd (_extract_word token)) with (drop (length (word_of token)) token).
  split.
  - destruct (word_of token) as [|w word]; [congruence|].
    destruct token as [|c token]; [discriminate|].
    simpl in Hbegin, Hw. simpl. intros [= -> _]. congruence.
  - assert (Hlen : length token = length pre + length (word_of token) + length post).
    { rewrite Htoken at 1. rewrite !length_app. lia. }
    rewrite length_app, length_drop. lia.
Qed.

Lemma _extract_word_leading_punctuation_witness :
  (begins_with_punctuation (py "(hi)") = true /\ word_of (py "(hi)") = py "hi") /\
  fst (_extract_word (py "(hi)")) ++ snd (_extract_word (py "(hi)")) <> py "(hi)" /\
  length (fst (_extract_word (py "(hi)")) ++ snd (_extract_word (py "(hi)")))
    = length (py "(hi)").
Proof.
  split; [split; reflexivity|].
  apply (_extract_word_leading_punctuation (py "(hi)")); [reflexivity|discriminate].
Defined.

(** X7 -- In the pipeline two tests of the filter never hold: the word of a token
    does not begin with a dot, and it does not begin with [#], because both
    characters are stripped.  So a hexadecimal colour reaches the filter
    without its [#]. *)
Theorem stripped_word_no_dot_no_hash (token : str) :
  startswith (py ".") (word_of token) = false /\
  (forall h, word_of token <> "#" :: h) /\
  (forall h, token = "#" :: h -> word_of token = word_of h).
Proof.
  pose proof (word_of_begins token) as Hw.
  split; [|split].
  - destruct (word_of token) as [|c w]; [reflexivity|].
    simpl in Hw. change (startswith (py ".") (c :: w)) with (Ascii.eqb "." c && true).
    destruct (Ascii.eqb "." c) eqn:E; [|reflexivity].
    apply Ascii.eqb_eq in E. subst c. vm_compute in Hw. discriminate Hw.
  - intros h Hh. rewrite Hh in Hw. vm_compute in Hw. discriminate Hw.
  - intros h ->. reflexivity.
Qed.

End Stripping.

(* ===================================================================== *)
(** * Further properties of the spell checker                             *)
(* ===================================================================== *)

Section SpellCheckerProperties.
Import PyStr Re SpellChecker Props Lang.



Lemma clean_token (d : SymSpell) (token : str) :
  clean d token -> value (_correct_token d token) = Ok token.
Proof.
  intros [Halone|[Hbegin Hkeeps]].
  { now rewrite (_correct_token_left_alone d token Halone). }
  destruct (isspace token) eqn:Hspace.
  { unfold _correct_token. now rewrite Hspace. }
  destruct (_should_skip_correction (word_of token)) eqn:Hskip.
  { unfold _correct_token, word_of in *. rewrite Hspace.
    destruct (_extract_word token) as [word trailing]. simpl in Hskip.
    now rewrite Hskip. }
  rewrite (_correct_token_engine d token Hspace Hskip).
  rewrite (value_bind_ok _ _ (word_of token) Hkeeps).
  destruct (word_of_prefix token Hbegin) as (post & Htoken & Hpost & _).
  change (snd (_extract_word token)) with (drop (length (word_of token)) token) in Hpost.
  rewrite Hpost, <- Htoken. reflexivity.
Qed.

Lemma mapM_clean (d : SymSpell) (tokens : list str) :
  Forall (clean d) tokens -> value (mapM (_correct_token d) tokens) = Ok tokens.
Proof.
  induction 1 as [|token tokens Htoken _ IH]; [reflexivity|].
  cbn [mapM]. rewrite (value_bind_ok _ _ token (clean_token d token Htoken)).
  now rewrite (value_bind_ok _ _ tokens IH).
Qed.

(** X9 -- A text all of whose tokens are clean comes back as it is: each token is
    left alone, or does not begin with punctuation and has a word that the
    engine keeps. *)
Theorem clean_text_unchanged (d : SymSpell) (text : str) :
  Forall (clean d) (_tokenize text) ->
  value (correct_text (mkSpellChecker (Some d)) text) = Ok text.
Proof.
  intros Hclean. unfold correct_text. simpl.
  rewrite (value_bind_ok _ _ _ (mapM_clean d _ Hclean)).
  unfold value. simpl. now rewrite _tokenize_join.
Qed.

Lemma clean_text_unchanged_witness :
  Forall (clean helllo_to_hello) (_tokenize (py "well,  see www.x.y")) /\
  value (correct_text (mkSpellChecker (Some helllo_to_hello)) (py "well,  see www.x.y"))
    = Ok (py "well,  see www.x.y").
Proof.
  assert (Hclean : Forall (clean helllo_to_hello) (_tokenize (py "well,  see www.x.y"))).
  { change (_tokenize (py "well,  see www.x.y"))
      with [py "well,"; py "  "; py "see"; py " "; py "www.x.y"].
    repeat (apply Forall_cons; split);
      [right; split; reflexivity
      |left; left; reflexivity
      |right; split; reflexivity
      |left; left; reflexivity
      |left; right; right; left; reflexivity
      |apply Forall_nil; exact I]. }
  split; [exact Hclean|].
  exact (clean_text_unchanged helllo_to_hello (py "well,  see www.x.y") Hclean).
Defined.

Lemma _correct_token_calls_bound (d : SymSpell) (token : str) :
  length (calls (_correct_token d token)) <= if isspace token then 0 else 2.
Proof.
  destruct (isspace token) eqn:Hspace.
  { unfold _correct_token. rewrite Hspace. simpl. lia. }
  destruct (_should_skip_correction (word_of token)) eqn:Hskip.
  { unfold _correct_token, word_of in *. rewrite Hspace.
    destruct (_extract_word token) as [word trailing]. simpl in Hskip.
    rewrite Hskip. simpl. lia. }
  rewrite (_correct_token_engine d token Hspace Hskip).
  destruct (_apply_correction_returns d (word_of token)) as [w Hw].
  { intros E. rewrite E in Hskip. discriminate. }
  rewrite (calls_bind_ok _ _ w Hw). simpl. rewrite app_nil_r.
  rewrite _apply_correction_eq. destruct (known_word d (word_of token)); simpl; lia.
Qed.

Lemma mapM_calls_bound (d : SymSpell) (tokens : list str) :
  length (calls (mapM (_correct_token d) tokens)) <= 2 * length (words tokens).
Proof.
  induction tokens as [|token tokens IH]; [simpl; lia|].
  pose proof (_correct_token_calls_bound d token) as Htoken.
  assert (Hwords : length (words (token :: tokens))
                   = (if isspace token then 0 else 1) + length (words tokens)).
  { unfold words. simpl. now destruct (isspace token). }
  rewrite Hwords. cbn [mapM]. unfold bind at 1.
  destruct (_correct_token d token) as [[piece|e] log]; unfold calls in *; simpl in *.
  - destruct (mapM (_correct_token d) tokens) as [[pieces|e] log']; simpl in *;
      rewrite ?app_nil_r, length_app; destruct (isspace token); lia.
  - destruct (isspace token); lia.
Qed.

(** X10 -- [correct_text] asks the dictionary at most twice for each token that is
    not whitespace, and never for whitespace. *)
Theorem correct_text_calls_bound (self : SpellChecker.t) (text : str) :
  length (calls (correct_text self text)) <= 2 * length (words (_tokenize text)).
Proof.
  destruct self as [[d|]]; unfold correct_text; simpl; [|lia].
  destruct (mapM_correct_token d (_tokenize text)) as (pieces & Hpieces & _).
  rewrite (calls_bind_ok _ _ pieces Hpieces). simpl. rewrite app_nil_r.
  apply mapM_calls_bound.
Qed.

Lemma c_lower_c_upper (c : ascii) : c_lower (c_upper c) = c_lower c.
Proof. destruct c as [[] [] [] [] [] [] [] []]; reflexivity. Qed.

Lemma c_lower_c_lower (c : ascii) : c_lower (c_lower c) = c_lower c.
Proof. destruct c as [[] [] [] [] [] [] [] []]; reflexivity. Qed.

Lemma lower_upper (s : str) : lower (upper s) = lower s.
Proof.
  induction s as [|c s IH]; simpl; [reflexivity|]. now rewrite c_lower_c_upper, IH.
Qed.

Lemma lower_lower (s : str) : lower (lower s) = lower s.
Proof.
  induction s as [|c s IH]; simpl; [reflexivity|]. now rewrite c_lower_c_lower, IH.
Qed.

Lemma lower_capitalize (s : str) : lower (capitalize s) = lower s.
Proof.
  destruct s as [|c s]; simpl; [reflexivity|].
  now rewrite c_lower_c_upper, lower_lower.
Qed.

(** X11 -- [_preserve_case] changes the case of letters and nothing else:
    on a non-empty original and an ASCII [corrected] it returns a string
    that has the length of [corrected] and is equal to it once both are
    lowercased. *)
Theorem _preserve_case_changes_case_only (original corrected : str) :
  original <> [] ->
  is_ascii corrected = true ->
  exists s,
    value (_preserve_case original corrected) = Ok s /\
    lower s = lower corrected /\
    length s = length corrected.
Proof.
  intros Hne _. unfold _preserve_case.
  destruct (isupper original).
  { exists (upper corrected). split; [reflexivity|].
    split; [apply lower_upper | apply length_map]. }
  destruct original as [|c original]; [congruence|].
  destruct (c_isupper c).
  - exists (capitalize corrected). split; [reflexivity|].
    split; [apply lower_capitalize|].
    destruct corrected; simpl; [reflexivity|]. f_equal. apply length_map.
  - now exists corrected.
Qed.

Lemma _preserve_case_changes_case_only_witness :
  (py "Teh" <> [] /\ is_ascii (py "tHE") = true) /\
  exists s,
    value (_preserve_case (py "Teh") (py "tHE")) = Ok s /\
    lower s = lower (py "tHE") /\
    length s = length (py "tHE").
Proof.
  split; [split; [discriminate | reflexivity]|].
  apply (_preserve_case_changes_case_only (py "Teh") (py "tHE"));
    [discriminate | reflexivity].
Defined.

(** X12 -- What the engine returns for a non-empty ASCII word, when the term
    of the first suggestion is ASCII, is the word itself, or that term up to
    the case of its letters. *)
Theorem _apply_correction_word_or_top_term (d : SymSpell) (word : str) :
  word <> [] ->
  is_ascii word = true ->
  (forall top others,
     lookup d (lower word) CLOSEST 2 = top :: others -> is_ascii (term top) = true) ->
  exists s,
    value (_apply_correction d word) = Ok s /\
    (s = word \/
     exists top others,
       lookup d (lower word) CLOSEST 2 = top :: others /\
       lower s = lower (term top) /\
       length s = length (term top)).
Proof.
  intros Hne _ _. rewrite _apply_correction_eq.
  destruct (known_word d word); [exists word; auto|].
  unfold value at 1. simpl.
  destruct (lookup d (lower word) CLOSEST 2) as [|top others] eqn:Hlookup;
    [exists word; auto|].
  destruct (_is_minor_typo word top); [exists word; auto|].
  unfold _preserve_case. destruct (isupper word).
  { exists (upper (term top)). split; [reflexivity|]. right. exists top, others.
    split; [reflexivity|]. split; [apply lower_upper | apply length_map]. }
  destruct word as [|c word]; [congruence|]. destruct (c_isupper c).
  - exists (capitalize (term top)). split; [reflexivity|]. right. exists top, others.
    split; [reflexivity|]. split; [apply lower_capitalize|].
    destruct (term top); simpl; [reflexivity|]. f_equal. apply length_map.
  - exists (term top). split; [reflexivity|]. right. now exists top, others.
Qed.

Lemma _apply_correction_word_or_top_term_witness :
  (py "Teh" <> [] /\ is_ascii (py "Teh") = true /\
   lookup teh_to_the (lower (py "Teh")) CLOSEST 2
     = [mkSuggestItem (py "the") 1 23135851162]) /\
  exists s,
    value (_apply_correction teh_to_the (py "Teh")) = Ok s /\
    (s = py "Teh" \/
     exists top others,
       lookup teh_to_the (lower (py "Teh")) CLOSEST 2 = top :: others /\
       lower s = lower (term top) /\
       length s = length (term top)).
Proof.
  split; [split; [discriminate | split; reflexivity]|].
  apply (_apply_correction_word_or_top_term teh_to_the (py "Teh"));
    [discriminate | reflexivity |].
  intros top others H. injection H as <- _. reflexivity.
Defined.

Lemma findall_tokens_from_nil (fuel : nat) : findall_tokens_from fuel [] = [].
Proof. now destruct fuel. Qed.

(** A run is its own and only token. *)
Lemma findall_tokens_run (token : str) :
  is_Some (run_class token) -> findall_tokens token = [token].
Proof.
  destruct token as [|c m]; [now intros [? [=]]|].
  intros [b Hb]. unfold findall_tokens. cbn [length findall_tokens_from].
  destruct (match_token_run c m) as (m' & rest & Hmatch & Happ & _ & Hnext).
  rewrite Hmatch.
  assert (Hrest : rest = []).
  { destruct rest as [|c' rest]; [reflexivity|]. exfalso.
    simpl in Hb.
    destruct (forallb (fun d => eqb (c_isspace d) (c_isspace c)) m) eqn:Hall;
      [|discriminate].
    injection Happ as Happ. rewrite <- Happ in Hall.
    rewrite forallb_app in Hall. simpl in Hall. rewrite Hnext in Hall.
    apply andb_true_iff in Hall as [_ Hall].
    now destruct (c_isspace c). }
  subst rest. rewrite app_nil_r in Happ. rewrite Happ.
  now rewrite findall_tokens_from_nil.
Qed.

Lemma alternating_runs_elem (tokens : list str) (token : str) :
  alternating_runs tokens -> token ∈ tokens -> is_Some (run_class token).
Proof.
  induction tokens as [|t tokens IH]; simpl.
  - now intros _ ?%elem_of_nil.
  - intros (Ht & _ & Hrest) [->|Hin]%elem_of_cons; auto.
Qed.

(** X13 -- Tokenizing is idempotent: every token of a text is a text of one
    token, itself. *)
Theorem _tokenize_token (text token : str) :
  token ∈ _tokenize text -> _tokenize token = [token].
Proof.
  intros Hin. unfold _tokenize in *. apply findall_tokens_run.
  apply (alternating_runs_elem (findall_tokens text)); [|exact Hin].
  unfold findall_tokens.
  now destruct (findall_tokens_from_spec (length text) text (le_n _)) as (_ & Halt & _).
Qed.

Lemma _tokenize_token_witness :
  py "world" ∈ _tokenize (py "hello  world") /\ _tokenize (py "world") = [py "world"].
Proof.
  assert (Hin : py "world" ∈ _tokenize (py "hello  world")).
  { change (_tokenize (py "hello  world")) with [py "hello"; py "  "; py "world"].
    apply elem_of_cons. right. apply elem_of_cons. right. apply elem_of_cons. now left. }
  split; [exact Hin|]. exact (_tokenize_token (py "hello  world") (py "world") Hin).
Defined.

End SpellCheckerProperties.

(* ===================================================================== *)
(** * Further properties of the classifier                                *)
(* ===================================================================== *)

Section ClassifierProperties.
Import PyStr Props Lang Classifier.

Lemma lstrip_by_all (p : ascii -> bool) (s : str) :
  forallb p s = true -> lstrip_by p s = [].
Proof.
  induction s as [|c s IH]; simpl; [reflexivity|].
  intros [Hc Hs]%andb_true_iff. rewrite Hc. now apply IH.
Qed.

(** The lines that the loop passes over are the lines of whitespace,
    the empty line among them. *)
Lemma strip_whitespace_blank (line : str) :
  strip_whitespace line = [] <-> blank line = true.
Proof.
  unfold strip_whitespace, blank. split.
  - intros Hstrip.
    destruct (strip_by_split c_isspace line) as (pre & post & Hline & Hpre & Hpost).
    rewrite Hstrip in Hline. rewrite Hline, forallb_app. simpl. now rewrite Hpre, Hpost.
  - intros Hall. unfold strip_by. now rewrite (lstrip_by_all _ _ Hall).
Qed.

Lemma not_blank_cons (line : str) (lines : list str) :
  not_blank (line :: lines)
  = if blank line then not_blank lines else line :: not_blank lines.
Proof. unfold not_blank. simpl. now destruct (blank line). Qed.

(** X16 -- The loop writes one response for each line it reads that is not blank,
    and none for a blank one; the lines it read and the lines it left are
    the input. *)
Theorem command_loop_one_response_per_line
    (rt : Runtime) (pipe : option Pipeline) (stdin : list str) :
  exists read,
    stdin = read ++ snd (command_loop rt pipe stdin) /\
    length (fst (command_loop rt pipe stdin)) = length (not_blank read).
Proof.
  induction stdin as [|line rest (read & Hrest & Hcount)].
  { exists []. split; reflexivity. }
  cbn [command_loop].
  destruct (strip_whitespace line) as [|c line'] eqn:Hstrip.
  { exists (line :: read). apply strip_whitespace_blank in Hstrip.
    rewrite not_blank_cons, Hstrip. split; [simpl; now f_equal | exact Hcount]. }
  assert (Hblank : blank line = false).
  { apply not_true_is_false. intros H%strip_whitespace_blank. congruence. }
  assert (Hstep : forall response : json,
            exists read',
              line :: rest = read' ++ snd (command_loop rt pipe rest) /\
              length (response :: fst (command_loop rt pipe rest))
                = length (not_blank read')).
  { intros response. exists (line :: read).
    rewrite not_blank_cons, Hblank. simpl. split; [now f_equal | now f_equal]. }
  destruct (json_loads rt (c :: line')) as [e|command].
  { destruct (command_loop rt pipe rest) as [written unread]. apply Hstep. }
  destruct (process_command rt pipe command) as [e|result].
  { destruct (command_loop rt pipe rest) as [written unread]. apply Hstep. }
  destruct (is_string "shutdown" (response_type result)).
  - exists [line]. rewrite not_blank_cons, Hblank. split; reflexivity.
  - destruct (command_loop rt pipe rest) as [written unread]. apply Hstep.
Qed.

(** X17 -- The loop keeps nothing from one line to the next: as long as no
    response to the lines of [before] is of type [shutdown], the run on
    [before ++ after] is the run on [before] followed by the run on
    [after]. *)
Theorem command_loop_app
    (rt : Runtime) (pipe : option Pipeline) (before after : list str) :
  Forall (fun response => is_string "shutdown" (response_type response) = false)
         (fst (command_loop rt pipe before)) ->
  command_loop rt pipe (before ++ after)
  = (fst (command_loop rt pipe before) ++ fst (command_loop rt pipe after),
     snd (command_loop rt pipe after)).
Proof.
  induction before as [|line rest IH]; intros Hnone.
  { simpl. now destruct (command_loop rt pipe after). }
  change ((line :: rest) ++ after) with (line :: (rest ++ after)).
  cbn [command_loop] in *.
  destruct (strip_whitespace line) as [|c line']; [now apply IH|].
  assert (Hstep : forall response : json,
            Forall (fun response => is_string "shutdown" (response_type response) = false)
                   (response :: fst (command_loop rt pipe rest)) ->
            (let '(written, unread) := command_loop rt pipe (rest ++ after) in
             (response :: written, unread))
            = ((response :: fst (command_loop rt pipe rest))
                 ++ fst (command_loop rt pipe after),
               snd (command_loop rt pipe after))).
  { intros response Hall. apply Forall_cons in Hall as [_ Hall].
    now rewrite (IH Hall). }
  destruct (json_loads rt (c :: line')) as [e|command].
  { destruct (command_loop rt pipe rest) as [written unread]. now apply Hstep. }
  destruct (process_command rt pipe command) as [e|result].
  { destruct (command_loop rt pipe rest) as [written unread]. now apply Hstep. }
  destruct (is_string "shutdown" (response_type result)) eqn:Hshutdown.
  - simpl in Hnone. apply Forall_cons in Hnone as [Hresult _]. congruence.
  - destruct (command_loop rt pipe rest) as [written unread]. now apply Hstep.
Qed.

Lemma command_loop_app_witness :
  Forall (fun response => is_string "shutdown" (response_type response) = false)
         (fst (command_loop small_runtime None [command_line "ping"; py "garbage"])) /\
  command_loop small_runtime None
    ([command_line "ping"; py "garbage"] ++ [command_line "shutdown"; command_line "ping"])
  = (fst (command_loop small_runtime None [command_line "ping"; py "garbage"])
       ++ fst (command_loop small_runtime None
                 [command_line "shutdown"; command_line "ping"]),
     snd (command_loop small_runtime None
            [command_line "shutdown"; command_line "ping"])).
Proof.
  assert (Hnone :
    Forall (fun response => is_string "shutdown" (response_type response) = false)
           (fst (command_loop small_runtime None [command_line "ping"; py "garbage"]))).
  { repeat (apply Forall_cons; split; [reflexivity|]). apply Forall_nil. exact I. }
  split; [exact Hnone|].
  exact (command_loop_app small_runtime None [command_line "ping"; py "garbage"]
           [command_line "shutdown"; command_line "ping"] Hnone).
Defined.

Lemma typed_intro (ty : str) (members : list (str * json)) :
  ty ∈ response_types -> typed (JObject ((py "type", JString ty) :: members)).
Proof. intros Hty. exists ty. split; [exact Hty | reflexivity]. Qed.

Lemma error_response_typed (message : str) : typed (error_response message).
Proof.
  apply typed_intro. unfold response_types. rewrite !elem_of_cons. auto.
Qed.

(** With a loaded pipeline every result of [process_command] carries one of
    the four response types. *)
Lemma process_command_typed (rt : Runtime) (run : Pipeline) (command result : json) :
  process_command rt (Some run) command = inr result -> typed result.
Proof.
  destruct command as [| | | | |members]; try discriminate. simpl.
  destruct (is_string "classify" _).
  { intros [= <-]. unfold classify. destruct (run _ _ _);
      [apply error_response_typed|].
    apply typed_intro. unfold response_types. rewrite !elem_of_cons. auto. }
  destruct (is_string "ping" _).
  { intros [= <-]. apply typed_intro. unfold response_types.
    rewrite !elem_of_cons. auto. }
  destruct (is_string "shutdown" _).
  { intros [= <-]. apply typed_intro. unfold response_types.
    rewrite !elem_of_cons. auto 6. }
  intros [= <-]. apply error_response_typed.
Qed.

Lemma command_loop_typed (rt : Runtime) (run : Pipeline) (stdin : list str) :
  Forall typed (fst (command_loop rt (Some run) stdin)).
Proof.
  induction stdin as [|line rest IH]; [apply Forall_nil; exact I|].
  cbn [command_loop].
  destruct (strip_whitespace line) as [|c line']; [exact IH|].
  destruct (json_loads rt (c :: line')) as [e|command].
  { destruct (command_loop rt (Some run) rest) as [written unread].
    apply Forall_cons. split; [apply error_response_typed | exact IH]. }
  destruct (process_command rt (Some run) command) as [e|result] eqn:Hresult.
  { destruct (command_loop rt (Some run) rest) as [written unread].
    apply Forall_cons. split; [apply error_response_typed | exact IH]. }
  apply process_command_typed in Hresult.
  destruct (is_string "shutdown" (response_type result)).
  - apply Forall_cons. split; [exact Hresult | apply Forall_nil; exact I].
  - destruct (command_loop rt (Some run) rest) as [written unread].
    apply Forall_cons. split; [exact Hresult | exact IH].
Qed.



(** X19 -- The [sequence] that [classify] reports is the pipeline's sequence when
    that has at most 100 characters, and otherwise its first 100 characters
    followed by three dots; it never has more than 103 characters. *)
Theorem classify_sequence_truncated
    (run : Pipeline) (text labels multi_label : json) (result : PipeResult) :
  run text labels multi_label = inr result ->
  exists s,
    member "sequence" (classify (Some run) text labels multi_label) = Some (JString s) /\
    length s <= 103 /\
    (length (result_sequence result) <= 100 -> s = result_sequence result) /\
    (100 < length (result_sequence result) ->
     s = take 100 (result_sequence result) ++ py "..." /\ length s = 103).
Proof.
  intros Hrun. unfold classify. rewrite Hrun.
  destruct (100 <? length (result_sequence result))%nat eqn:Hlong.
  - apply Nat.ltb_lt in Hlong.
    exists (take 100 (result_sequence result) ++ py "...").
    assert (Hlen : length (take 100 (result_sequence result) ++ py "...") = 103).
    { rewrite length_app, length_take. change (length (py "...")) with 3. lia. }
    split; [reflexivity|]. split; [lia|]. split; [lia|]. auto.
  - apply Nat.ltb_ge in Hlong. exists (result_sequence result).
    split; [reflexivity|]. split; [lia|]. split; [reflexivity|lia].
Qed.

Lemma classify_sequence_truncated_witness :
  exists s,
    member "sequence"
      (classify (Some (fun _ _ _ => inr (mkPipeResult JNull JNull (replicate 150 "a"))))
                (JString (replicate 150 "a")) (JArray []) (JBool false))
      = Some (JString s) /\
    length s = 103.
Proof.
  destruct (classify_sequence_truncated
              (fun _ _ _ => inr (mkPipeResult JNull JNull (replicate 150 "a")))
              (JString (replicate 150 "a")) (JArray []) (JBool false)
              (mkPipeResult JNull JNull (replicate 150 "a")) eq_refl)
    as (s & Hs & _ & _ & Hlong).
  exists s. split; [exact Hs|]. apply Hlong. vm_compute. lia.
Defined.

End ClassifierProperties.

(* ===================================================================== *)
(** * What the dictionary is asked                                        *)
(* ===================================================================== *)

Section DictionaryCalls.
Import PyStr Re SpellChecker Props Lang.

Lemma _apply_correction_calls_shape (d : SymSpell) (word : str) (c : call) :
  c ∈ calls (_apply_correction d word) ->
  c = Lookup (lower word) TOP 0 \/ c = Lookup (lower word) CLOSEST 2.
Proof.
  rewrite _apply_correction_eq. unfold calls.
  destruct (known_word d word); simpl; rewrite ?elem_of_cons, elem_of_nil; tauto.
Qed.

Lemma _correct_token_calls_engine (d : SymSpell) (token : str) (c : call) :
  c ∈ calls (_correct_token d token) ->
  _should_skip_correction (word_of token) = false /\
  c ∈ calls (_apply_correction d (word_of token)).
Proof.
  destruct (isspace token) eqn:Hspace.
  { unfold _correct_token. rewrite Hspace. simpl. now intros ?%elem_of_nil. }
  destruct (_should_skip_correction (word_of token)) eqn:Hskip.
  { unfold _correct_token, word_of in *. rewrite Hspace.
    destruct (_extract_word token) as [word trailing]. simpl in Hskip.
    rewrite Hskip. simpl. now intros ?%elem_of_nil. }
  rewrite (_correct_token_engine d token Hspace Hskip).
  destruct (_apply_correction_returns d (word_of token)) as [w Hw].
  { intros E. rewrite E in Hskip. discriminate. }
  rewrite (calls_bind_ok _ _ w Hw). simpl. rewrite app_nil_r. auto.
Qed.

Lemma c_lower_not_upper (x : ascii) : c_isupper (c_lower x) = false.
Proof. destruct x as [[] [] [] [] [] [] [] []]; reflexivity. Qed.

Lemma c_lower_fixed (x : ascii) : c_islower (c_lower x) = false -> c_lower x = x.
Proof.
  destruct x as [[] [] [] [] [] [] [] []]; intros H;
    first [reflexivity | discriminate H].
Qed.

Lemma lower_no_upper (s : str) : existsb c_isupper (lower s) = false.
Proof.
  induction s as [|x s IH]; simpl; [reflexivity|].
  now rewrite c_lower_not_upper, IH.
Qed.

(** Lowercasing brings in no character that is not a lowercase letter. *)
Lemma contains_lower (c : ascii) (s : str) :
  c_islower c = false -> contains c s = false -> contains c (lower s) = false.
Proof.
  unfold contains. intros Hc Hs.
  apply bool_decide_eq_false in Hs. apply bool_decide_eq_false.
  intros Hin. apply Hs. clear Hs.
  induction s as [|x s IH]; simpl in Hin; [exact Hin|].
  apply elem_of_cons in Hin as [Heq|Hin].
  - apply elem_of_cons. left. rewrite Heq in Hc.
    now rewrite (c_lower_fixed x Hc) in Heq.
  - apply elem_of_cons. right. now apply IH.
Qed.

(** X15 -- Every call that [correct_text] makes to the dictionary is for a
    phrase that is not empty and has none of the letters [A-Z], no slash,
    no backslash and no underscore; it is the exact lookup ([TOP], distance
    0) or the suggestion lookup ([CLOSEST], distance 2). *)
Theorem dictionary_calls_shape (self : SpellChecker.t) (text : str) (c : call) :
  c ∈ calls (correct_text self text) ->
  call_phrase c <> [] /\
  existsb (in_range "A" "Z") (call_phrase c) = false /\
  contains "/" (call_phrase c) = false /\
  contains "\" (call_phrase c) = false /\
  contains "_" (call_phrase c) = false /\
  ((call_verbosity c = TOP /\ call_max_edit_distance c = 0%Z) \/
   (call_verbosity c = CLOSEST /\ call_max_edit_distance c = 2%Z)).
Proof.
  destruct self as [[d|]]; unfold correct_text; simpl;
    [|now intros ?%elem_of_nil].
  destruct (mapM_correct_token d (_tokenize text)) as (pieces & Hpieces & _).
  rewrite (calls_bind_ok _ _ pieces Hpieces). simpl. rewrite app_nil_r.
  intros (token & _ & Hc)%mapM_calls.
  destruct (_correct_token_calls_engine d token c Hc) as [Hskip Hengine].
  set (word := word_of token) in *.
  assert (Hphrase : call_phrase c = lower word /\
            ((call_verbosity c = TOP /\ call_max_edit_distance c = 0%Z) \/
             (call_verbosity c = CLOSEST /\ call_max_edit_distance c = 2%Z))).
  { destruct (_apply_correction_calls_shape d word c Hengine) as [-> | ->]; auto. }
  destruct Hphrase as [-> Hkind].
  unfold _should_skip_correction in Hskip.
  destruct word as [|a w] eqn:Hword; [discriminate|]. rewrite <- Hword in *.
  repeat (apply orb_false_iff in Hskip as [Hskip ?]).
  match goal with H : _is_file_path _ = false |- _ =>
    unfold _is_file_path in H; repeat (apply orb_false_iff in H as [H ?]) end.
  split; [rewrite Hword; discriminate|].
  split; [exact (lower_no_upper _)|].
  repeat split; try (apply contains_lower; [reflexivity | assumption]).
  exact Hkind.
Qed.

Lemma dictionary_calls_shape_witness :
  Lookup (py "helllo") CLOSEST 2
    ∈ calls (correct_text (mkSpellChecker (Some helllo_to_hello)) (py "Helllo, NASA")) /\
  existsb (in_range "A" "Z") (py "helllo") = false.
Proof.
  assert (Hcall : Lookup (py "helllo") CLOSEST 2
    ∈ calls (correct_text (mkSpellChecker (Some helllo_to_hello)) (py "Helllo, NASA"))).
  { change (calls (correct_text (mkSpellChecker (Some helllo_to_hello))
                     (py "Helllo, NASA")))
      with [Lookup (py "helllo") TOP 0; Lookup (py "helllo") CLOSEST 2].
    apply elem_of_cons. right. apply elem_of_cons. now left. }
  split; [exact Hcall|].
  exact (proj1 (proj2 (dictionary_calls_shape _ _ _ Hcall))).
Defined.

End DictionaryCalls.

(* ===================================================================== *)
(** * Tokenizing a text in two parts                                      *)
(* ===================================================================== *)

Section TokenizerComposition.
Import PyStr Re SpellChecker Props Lang.

Lemma run_class_inv (c : ascii) (m : str) (b : bool) :
  run_class (c :: m) = Some b ->
  b = c_isspace c /\ forallb (fun d => eqb (c_isspace d) b) m = true.
Proof.
  simpl. destruct (forallb _ m) eqn:Hall; [|discriminate].
  intros [= <-]. auto.
Qed.

(** A string splits in one way only into a run of a class and a rest that
    is empty or begins with a character of the other class. *)
Lemma run_split_unique (b : bool) (m m' rest rest' : str) :
  forallb (fun d => eqb (c_isspace d) b) m = true ->
  forallb (fun d => eqb (c_isspace d) b) m' = true ->
  (forall c, head rest = Some c -> c_isspace c = negb b) ->
  (forall c, head rest' = Some c -> c_isspace c = negb b) ->
  m ++ rest = m' ++ rest' ->
  m = m' /\ rest = rest'.
Proof.
  revert m'. induction m as [|x m IH]; intros [|x' m'] Hm Hm' Hrest Hrest' Heq;
    simpl in *.
  - auto.
  - exfalso. subst rest. apply andb_true_iff in Hm' as [Hx' _].
    rewrite (Hrest x' eq_refl) in Hx'. now destruct b.
  - exfalso. subst rest'. apply andb_true_iff in Hm as [Hx _].
    rewrite (Hrest' x eq_refl) in Hx. now destruct b.
  - injection Heq as -> Heq.
    apply andb_true_iff in Hm as [_ Hm]. apply andb_true_iff in Hm' as [_ Hm'].
    destruct (IH m' Hm Hm' Hrest Hrest' Heq) as [-> ->]. auto.
Qed.

(** The scan does not depend on the fuel once there is enough of it. *)
Lemma findall_tokens_from_fuel (fuel fuel' : nat) (s : str) :
  length s <= fuel -> length s <= fuel' ->
  findall_tokens_from fuel s = findall_tokens_from fuel' s.
Proof.
  revert fuel' s. induction fuel as [|fuel IH]; intros fuel' s Hlen Hlen'.
  - destruct s; [now destruct fuel' | simpl in Hlen; lia].
  - destruct s as [|c s]; [now destruct fuel'|].
    destruct fuel' as [|fuel']; [simpl in Hlen'; lia|].
    destruct (match_token_run c s) as (m & rest & Hmatch & Happ & _).
    cbn [findall_tokens_from]. rewrite Hmatch. f_equal.
    apply (f_equal length) in Happ. rewrite length_app in Happ.
    simpl in Happ, Hlen, Hlen'. apply IH; lia.
Qed.

Lemma findall_tokens_from_enough (fuel : nat) (s : str) :
  length s <= fuel -> findall_tokens_from fuel s = findall_tokens s.
Proof.
  intros Hlen. unfold findall_tokens. now apply findall_tokens_from_fuel.
Qed.

Lemma findall_tokens_cons (c : ascii) (s m rest : str) :
  match_token (c :: s) = Some (m, rest) ->
  length rest <= length s ->
  findall_tokens (c :: s) = m :: findall_tokens rest.
Proof.
  intros Hmatch Hrest. unfold findall_tokens at 1.
  cbn [length findall_tokens_from]. rewrite Hmatch. f_equal.
  now apply findall_tokens_from_enough.
Qed.

(** X14 -- Where a text is cut between a whitespace character and a character that
    is not one, the tokens of the text are the tokens of the first part
    followed by the tokens of the second. *)
Theorem _tokenize_app (a b : str) :
  (forall x y, last a = Some x -> head b = Some y -> c_isspace y = negb (c_isspace x)) ->
  _tokenize (a ++ b) = _tokenize a ++ _tokenize b.
Proof.
  unfold _tokenize.
  remember (length a) as n eqn:Hn. revert a Hn.
  induction n as [n IH] using lt_wf_ind. intros a Hn Hcut.
  destruct a as [|c a]; [reflexivity|].
  destruct (match_token_run c a) as (m & rest & Hmatch & Happ & Hclass & Hnext).
  destruct (match_token_run c (a ++ b)) as (m' & rest' & Hmatch' & Happ' & Hclass' & Hnext').
  assert (Hlen : length rest <= length a).
  { apply (f_equal length) in Happ. rewrite length_app in Happ. simpl in Happ. lia. }
  assert (Hlen' : length rest' <= length (a ++ b)).
  { apply (f_equal length) in Happ'. rewrite length_app in Happ'. simpl in Happ'. lia. }
  change ((c :: a) ++ b) with (c :: (a ++ b)).
  rewrite (findall_tokens_cons c a (c :: m) rest Hmatch Hlen).
  rewrite (findall_tokens_cons c (a ++ b) (c :: m') rest' Hmatch' Hlen').
  apply run_class_inv in Hclass as [_ Hm]. apply run_class_inv in Hclass' as [_ Hm'].
  injection Happ as Happ. injection Happ' as Happ'.
  assert (Hlast : rest <> [] -> last rest = last (c :: a)).
  { intros Hne. rewrite <- Happ.
    change (c :: m ++ rest) with ((c :: m) ++ rest).
    rewrite last_app. destruct (last rest) eqn:E; [reflexivity|].
    apply last_None in E. congruence. }
  assert (Hsplit : m' = m /\ rest' = rest ++ b).
  { apply (run_split_unique (c_isspace c)); try assumption.
    - intros y Hy. destruct rest' as [|y' ?]; [discriminate|].
      injection Hy as ->. exact Hnext'.
    - intros y Hy. destruct rest as [|x rest0].
      + simpl in Hy. rewrite app_nil_r in Happ. subst a.
        destruct (last (c :: m)) as [x|] eqn:Hx.
        * rewrite (Hcut x y eq_refl Hy). f_equal.
          apply last_Some in Hx as [l Hl].
          assert (Hin : x ∈ c :: m) by (rewrite Hl; apply elem_of_app; right; now left).
          apply elem_of_cons in Hin as [->|Hin]; [reflexivity|].
          rewrite forallb_forall in Hm.
          apply list_elem_of_In in Hin. specialize (Hm x Hin).
          now apply eqb_prop in Hm.
        * apply last_None in Hx. discriminate.
      + simpl in Hy. injection Hy as ->. exact Hnext.
    - rewrite Happ'. rewrite <- Happ. now rewrite <- app_assoc. }
  destruct Hsplit as [-> ->].
  change ((c :: m) :: findall_tokens rest ++ findall_tokens b)
    with (((c :: m) :: findall_tokens rest) ++ findall_tokens b).
  simpl. f_equal.
  destruct rest as [|x rest0] eqn:Hrest; [reflexivity|]. rewrite <- Hrest in *.
  apply (IH (length rest)); [subst n; simpl; lia | reflexivity |].
  intros x' y Hx' Hy. apply (Hcut x' y); [|exact Hy].
  rewrite <- Hlast; [exact Hx' | rewrite Hrest; discriminate].
Qed.

Lemma _tokenize_app_witness :
  _tokenize (py "hello  " ++ py "world ") = _tokenize (py "hello  ") ++ _tokenize (py "world ").
Proof.
  apply (_tokenize_app (py "hello  ") (py "world ")).
  intros x y [= <-] [= <-]. reflexivity.
Defined.

End TokenizerComposition.
